(** * unify_arrow.py: path parsing, dot classification, Ramer-Douglas-Peucker
      simplification and symmetry reconstruction

    A shallow embedding of [src/unify_arrow.py].

    - Python floats are read as real numbers ([R]): rounding, infinities and
      NaN are outside the model.
    - Python exceptions are values of [exn].
    - [ramer_douglas_peucker] recurses on sub-lists; the model bounds the
      depth of the recursion by [fuel], and a run that Python would carry on
      without bound ends in [OutOfFuel] at every fuel.  Python's recursion
      limit is not modelled.
    - Strings are ASCII; [re.findall] is modelled for the two patterns of
      the source.
    - The scan of the SVG text for [<path .../>] elements, the rasterizer,
      the contour tracer and the writer of [main] are not modelled. *)

From Stdlib Require Import Reals Lra Lia ZArith.
From Stdlib Require Import Ascii.
From Stdlib Require String.
From stdpp Require Import base list strings.

Open Scope R_scope.

(** ** Outcomes of Python calls *)

Inductive exn : Set :=
  | StopIteration
  | ValueError
  | IndexError
  | ZeroDivisionError.

Inductive outcome (A : Type) : Type :=
  | Ret (a : A)
  | Raise (e : exn)
  | OutOfFuel.

Arguments Ret {A} a.
Arguments Raise {A} e.
Arguments OutOfFuel {A}.

#[global] Instance outcome_bind : MBind outcome := fun A B k m =>
  match m with
  | Ret a => k a
  | Raise e => Raise e
  | OutOfFuel => OutOfFuel
  end.

#[global] Instance outcome_ret : MRet outcome := @Ret.

(** ** Points *)

Definition point : Type := R * R.

(** Comparisons of floats are decided; [decide] and [bool_decide] turn them
    into the tests of the source. *)
#[global] Instance R_eq_dec : EqDecision R := Req_dec_T.
#[global] Instance Rlt_decision (a b : R) : Decision (a < b) := Rlt_dec a b.
#[global] Instance Rle_decision (a b : R) : Decision (a <= b) := Rle_dec a b.

(** [np.hypot] over the reals. *)
Definition hypot (x y : R) : R := sqrt (x * x + y * y).

(** ** Characters and numeric literals *)

Definition is_digit (c : ascii) : bool :=
  let n := Ascii.nat_of_ascii c in (48 <=? n)%nat && (n <=? 57)%nat.

Definition is_alpha (c : ascii) : bool :=
  let n := Ascii.nat_of_ascii c in
  ((65 <=? n)%nat && (n <=? 90)%nat) || ((97 <=? n)%nat && (n <=? 122)%nat).

Definition is_sign (c : ascii) : bool :=
  Ascii.eqb c "-"%char || Ascii.eqb c "+"%char.

(** Longest prefix of digits ([\d*], greedy) and what follows it. *)
Fixpoint span_digits (s : list ascii) : list ascii * list ascii :=
  match s with
  | c :: rest =>
      if is_digit c
      then let '(ds, tl) := span_digits rest in (c :: ds, tl)
      else ([], s)
  | [] => ([], [])
  end.

(** [[-+]?] *)
Definition take_sign (s : list ascii) : option ascii * list ascii :=
  match s with
  | c :: rest => if is_sign c then (Some c, rest) else (None, s)
  | [] => (None, [])
  end.

(** A numeric literal as the regular expressions cut it: sign, digits before
    the point, digits after the point, exponent. *)
Record literal : Set := Literal {
  lit_sign : option ascii;
  lit_int : list ascii;
  lit_frac : option (list ascii);
  lit_exp : option (ascii * option ascii * list ascii)
}.

Definition opt_char (o : option ascii) : list ascii :=
  match o with Some c => [c] | None => [] end.

Definition lit_text (l : literal) : string :=
  String.string_of_list_ascii
    (opt_char (lit_sign l) ++ lit_int l
     ++ match lit_frac l with Some fs => "."%char :: fs | None => [] end
     ++ match lit_exp l with
        | Some (e, sg, ds) => e :: opt_char sg ++ ds
        | None => []
        end).

(** [\d*\.?\d+] after the sign, with the backtracking of the greedy match:
    the digits, a point and more digits when digits follow the point,
    otherwise the digits alone, which must then be at least one. *)
Definition scan_mantissa (s : list ascii)
  : option (list ascii * option (list ascii) * list ascii) :=
  let '(ds, s2) := span_digits s in
  let plain := match ds with [] => None | _ :: _ => Some (ds, None, s2) end in
  match s2 with
  | c :: s3 =>
      if Ascii.eqb c "."%char
      then let '(fs, s4) := span_digits s3 in
           match fs with
           | _ :: _ => Some (ds, Some fs, s4)
           | [] => plain
           end
      else plain
  | [] => plain
  end.

(** [(?:[eE][-+]?\d+)?] *)
Definition scan_exponent (s : list ascii)
  : option (ascii * option ascii * list ascii) * list ascii :=
  match s with
  | e :: s1 =>
      if Ascii.eqb e "e"%char || Ascii.eqb e "E"%char
      then let '(sg, s2) := take_sign s1 in
           let '(ds, s3) := span_digits s2 in
           match ds with
           | _ :: _ => (Some (e, sg, ds), s3)
           | [] => (None, s)
           end
      else (None, s)
  | [] => (None, [])
  end.

(** [[-+]?\d*\.?\d+(?:[eE][-+]?\d+)?] matched at the head of [s]. *)
Definition scan_number (s : list ascii) : option (literal * list ascii) :=
  let '(sg, s1) := take_sign s in
  match scan_mantissa s1 with
  | Some (ds, fs, s2) =>
      let '(ex, s3) := scan_exponent s2 in
      Some (Literal sg ds fs ex, s3)
  | None => None
  end.

(** [[-+]?\d*\.\d+|[-+]?\d+] matched at the head of [s] (the pattern of the
    bounding-box scan: no exponent). *)
Definition scan_coord (s : list ascii) : option (literal * list ascii) :=
  let '(sg, s1) := take_sign s in
  match scan_mantissa s1 with
  | Some (ds, fs, s2) => Some (Literal sg ds fs None, s2)
  | None => None
  end.

Definition digit_val (c : ascii) : Z := (Z.of_nat (Ascii.nat_of_ascii c) - 48)%Z.

Definition digits_val (ds : list ascii) : Z :=
  fold_left (fun acc c => (10 * acc + digit_val c)%Z) ds 0%Z.

Definition lit_negative (l : literal) : bool :=
  match lit_sign l with
  | Some c => Ascii.eqb c "-"%char
  | None => false
  end.

Definition lit_mantissa (l : literal) : Z :=
  digits_val (lit_int l ++ default [] (lit_frac l)).

Definition lit_exponent (l : literal) : Z :=
  (match lit_exp l with
   | Some (_, sg, ds) =>
       match sg with
       | Some c => if Ascii.eqb c "-"%char then - digits_val ds else digits_val ds
       | None => digits_val ds
       end
   | None => 0
   end - Z.of_nat (length (default [] (lit_frac l))))%Z.

(** The float a decimal numeral denotes: sign, digits, power of ten. *)
Definition decimal_value (negative : bool) (mantissa exponent : Z) : R :=
  (if negative then - IZR mantissa else IZR mantissa) * powerRZ 10 exponent.

Definition lit_value (l : literal) : R :=
  decimal_value (lit_negative l) (lit_mantissa l) (lit_exponent l).

(** The literal a whole token spells, if it spells one. *)
Definition parse_literal (tok : string) : option literal :=
  match scan_number (String.list_ascii_of_string tok) with
  | Some (l, []) => Some l
  | _ => None
  end.

(** [float(tok)] on a token of [tokenize_path]: a numeric token converts, a
    command letter raises [ValueError]. *)
Definition float (tok : string) : outcome R :=
  match parse_literal tok with
  | Some l => Ret (lit_value l)
  | None => Raise ValueError
  end.

(** ** tokenize_path *)

(** [re.findall]: at each position the letter alternative is tried first,
    then the number; a position where neither matches is skipped.  Every
    round consumes at least one character, so the length of the string is
    fuel enough. *)
Fixpoint findall_tokens (fuel : nat) (s : list ascii) : list string :=
  match fuel with
  | O => []
  | S fuel' =>
      match s with
      | [] => []
      | c :: rest =>
          if is_alpha c
          then String c EmptyString :: findall_tokens fuel' rest
          else match scan_number s with
               | Some (l, rest') => lit_text l :: findall_tokens fuel' rest'
               | None => findall_tokens fuel' rest
               end
      end
  end.

Definition tokenize_path (d : string) : list string :=
  findall_tokens (String.length d) (String.list_ascii_of_string d).

Fixpoint findall_coords (fuel : nat) (s : list ascii) : list literal :=
  match fuel with
  | O => []
  | S fuel' =>
      match s with
      | [] => []
      | _ :: rest =>
          match scan_coord s with
          | Some (l, rest') => l :: findall_coords fuel' rest'
          | None => findall_coords fuel' rest
          end
      end
  end.

(** ** sample_cubic_bezier *)

(** [np.linspace(0, 1, steps)]: the parameter values [k / (steps - 1)]. *)
Definition linspace01 (steps : nat) : list R :=
  map (fun k => INR k / INR (steps - 1)) (seq 0 steps).

Definition sample_cubic_bezier (p0 p1 p2 p3 : point) (steps : nat) : list point :=
  map (fun t =>
         let x := (1 - t) ^ 3 * p0.1 + 3 * (1 - t) ^ 2 * t * p1.1
                  + 3 * (1 - t) * t ^ 2 * p2.1 + t ^ 3 * p3.1 in
         let y := (1 - t) ^ 3 * p0.2 + 3 * (1 - t) ^ 2 * t * p1.2
                  + 3 * (1 - t) * t ^ 2 * p2.2 + t ^ 3 * p3.2 in
         (x, y))
      (linspace01 steps).

(** ** parse_svg_paths_basic *)

Definition upper_char (c : ascii) : ascii :=
  let n := Ascii.nat_of_ascii c in
  if (97 <=? n)%nat && (n <=? 122)%nat then Ascii.ascii_of_nat (n - 32) else c.

Definition upper (s : string) : string :=
  String.string_of_list_ascii (map upper_char (String.list_ascii_of_string s)).

Record parser_state : Type := ParserState {
  polygons : list (list point);
  current_poly : list point;
  current_pos : point;
  start_pos : point
}.

(** [if current_poly: polygons.append(current_poly)] *)
Definition flush (st : parser_state) : list (list point) :=
  match current_poly st with
  | [] => polygons st
  | _ :: _ => polygons st ++ [current_poly st]
  end.

(** [float(next(iterator))] for each of the tokens left when fewer remain
    than the command reads: a token that is no number raises [ValueError]
    before the iterator runs out. *)
Fixpoint floats (toks : list string) : outcome (list R) :=
  match toks with
  | [] => Ret []
  | t :: rest => x ← float t; xs ← floats rest; Ret (x :: xs)
  end.

(** The [while True] loop.  The iterator running out ([StopIteration], at a
    command or in the middle of its arguments) is caught: the polygon in
    progress is flushed and the completed polygons are returned.  A token in
    command position that is none of [M], [L], [C], [Z], [z] matches no
    branch and is passed over. *)
Fixpoint parse_loop (tokens : list string) (st : parser_state)
  : outcome (list (list point)) :=
  match tokens with
  | [] => Ret (flush st)
  | cmd :: args =>
      if String.eqb cmd "M" then
        match args with
        | tx :: ty :: rest =>
            x ← float tx; y ← float ty;
            parse_loop rest
              {| polygons := flush st; current_poly := [(x, y)];
                 current_pos := (x, y); start_pos := (x, y) |}
        | _ => _ ← floats args; Ret (flush st)
        end
      else if String.eqb cmd "L" then
        match args with
        | tx :: ty :: rest =>
            x ← float tx; y ← float ty;
            parse_loop rest
              {| polygons := polygons st;
                 current_poly := current_poly st ++ [(x, y)];
                 current_pos := (x, y); start_pos := start_pos st |}
        | _ => _ ← floats args; Ret (flush st)
        end
      else if String.eqb cmd "C" then
        match args with
        | t1 :: t2 :: t3 :: t4 :: t5 :: t6 :: rest =>
            c1x ← float t1; c1y ← float t2;
            c2x ← float t3; c2y ← float t4;
            ex ← float t5; ey ← float t6;
            let curve_points :=
              sample_cubic_bezier (current_pos st) (c1x, c1y) (c2x, c2y) (ex, ey) 20 in
            parse_loop rest
              {| polygons := polygons st;
                 current_poly := current_poly st ++ drop 1 curve_points;
                 current_pos := (ex, ey); start_pos := start_pos st |}
        | _ => _ ← floats args; Ret (flush st)
        end
      else if String.eqb (upper cmd) "Z" then
        parse_loop args
          {| polygons := polygons st;
             current_poly := current_poly st ++ [start_pos st];
             current_pos := start_pos st; start_pos := start_pos st |}
      else parse_loop args st
  end.

Definition initial_state : parser_state :=
  {| polygons := []; current_poly := []; current_pos := (0, 0); start_pos := (0, 0) |}.

Definition parse_svg_paths_basic (d_str : string) : outcome (list (list point)) :=
  parse_loop (tokenize_path d_str) initial_state.

(** ** extract_paths_from_file: the body of the loop over the paths *)

(** [coords[0::2]] and [coords[1::2]] *)
Fixpoint stride2 {A : Type} (l : list A) : list A :=
  match l with
  | x :: _ :: rest => x :: stride2 rest
  | [x] => [x]
  | [] => []
  end.

(** [max] and [min] of a list of floats; on an empty list they raise. *)
Definition list_max (l : list R) : outcome R :=
  match l with
  | [] => Raise ValueError
  | x :: rest => Ret (fold_left Rmax rest x)
  end.

Definition list_min (l : list R) : outcome R :=
  match l with
  | [] => Raise ValueError
  | x :: rest => Ret (fold_left Rmin rest x)
  end.

(** Python's [/] on floats. *)
Definition py_div (a b : R) : outcome R :=
  if decide (b = 0) then Raise ZeroDivisionError else Ret (a / b).

(** [ratio = w/h if h!=0 else 0] *)
Definition aspect_ratio (w h : R) : outcome R :=
  if decide (h = 0) then Ret 0 else py_div w h.

(** [is_dot = (w < 30 and h < 30 and 0.5 < ratio < 2.0)] *)
Definition is_dot (w h : R) : outcome bool :=
  ratio ← aspect_ratio w h;
  Ret (bool_decide (w < 30) && bool_decide (h < 30)
       && bool_decide (0.5 < ratio) && bool_decide (ratio < 2.0)).

Record bounding_box : Type := BoundingBox {
  bb_w : R; bb_h : R; bb_cx : R; bb_cy : R
}.

Definition path_coords (d : string) : list R :=
  map lit_value (findall_coords (String.length d) (String.list_ascii_of_string d)).

(** Lines 95 to 101: the box of the numbers of one path.  The loop reaches
    these lines only with [coords] not empty. *)
Definition bounding_box_of (coords : list R) : outcome bounding_box :=
  let xs := stride2 coords in
  let ys := stride2 (drop 1 coords) in
  max_x ← list_max xs; min_x ← list_min xs;
  max_y ← list_max ys; min_y ← list_min ys;
  Ret {| bb_w := max_x - min_x; bb_h := max_y - min_y;
         bb_cx := (max_x + min_x) / 2; bb_cy := (max_y + min_y) / 2 |}.

Inductive path_class : Type :=
  | Skipped
  | Dot (cx cy r : R)
  | ArrowFragment (parsed_polys : list (list point)).

(** What one [<path d=... fill=.../>] contributes.  ([xs] is never empty
    once [coords] is not, so the second [continue] is not reached.) *)
Definition classify_path (fill d : string) : outcome path_class :=
  let coords := path_coords d in
  match coords with
  | [] => Ret Skipped
  | _ :: _ =>
      bb ← bounding_box_of coords;
      if String.eqb (upper fill) "#13161B" then Ret Skipped
      else if decide (900 < bb_w bb) then Ret Skipped
      else
        dot ← is_dot (bb_w bb) (bb_h bb);
        if dot : bool
        then Ret (Dot (bb_cx bb) (bb_cy bb) ((bb_w bb + bb_h bb) / 4))
        else parsed_polys ← parse_svg_paths_basic d; Ret (ArrowFragment parsed_polys)
  end.

(** The loop over the paths found in the file, each given by its [fill]
    and [d] attributes: the dots and the arrow polygons collected. *)
Definition extract_paths_from_file (paths : list (string * string))
  : outcome (list (R * R * R) * list (list point)) :=
  fold_left
    (fun acc path =>
       '(dots, arrows) ← acc;
       class ← classify_path path.1 path.2;
       match class with
       | Skipped => Ret (dots, arrows)
       | Dot cx cy r => Ret (dots ++ [(cx, cy, r)], arrows)
       | ArrowFragment parsed_polys => Ret (dots, arrows ++ parsed_polys)
       end)
    paths (Ret ([], [])).

(** ** perpendicular_distance *)

Definition perpendicular_distance (pt start end_ : point) : R :=
  if decide (start = end_) then hypot (pt.1 - start.1) (pt.2 - start.2)
  else
    let '(x0, y0) := pt in
    let '(x1, y1) := start in
    let '(x2, y2) := end_ in
    let num := Rabs ((y2 - y1) * x0 - (x2 - x1) * y0 + x2 * y1 - y2 * x1) in
    let den := hypot (x2 - x1) (y2 - y1) in
    num / den.

(** ** ramer_douglas_peucker *)

(** The default of list accesses; every access it stands behind is in
    range. *)
Definition origin : point := (0, 0).

(** One round of [for i in range(1, end)]: the pair [(index, dmax)] after
    looking at [points[i]]. *)
Definition rdp_scan_step (points : list point) (end_ : nat)
    (acc : nat * R) (i : nat) : nat * R :=
  let '(index, dmax) := acc in
  let d := perpendicular_distance (nth i points origin)
             (nth 0 points origin) (nth end_ points origin) in
  if decide (dmax < d) then (i, d) else (index, dmax).

(** The loop: [(index, dmax)] when it ends.  Every [i] of the range is a
    valid index of [points]; on fewer than three points the range is empty
    (also on the empty list, where Python's [end] is -1). *)
Definition rdp_scan (points : list point) : nat * R :=
  let end_ := (length points - 1)%nat in
  fold_left (rdp_scan_step points end_) (seq 1 (end_ - 1)) (0%nat, 0).

(** The recursion of the source, with [fuel] bounding its depth.  On the
    empty list [points[0]] raises [IndexError]. *)
Fixpoint ramer_douglas_peucker (fuel : nat) (points : list point) (epsilon : R)
  : outcome (list point) :=
  match fuel with
  | O => OutOfFuel
  | S fuel' =>
      let end_ := (length points - 1)%nat in
      let '(index, dmax) := rdp_scan points in
      if decide (epsilon < dmax) then
        rec_results1 ← ramer_douglas_peucker fuel' (take (index + 1) points) epsilon;
        rec_results2 ← ramer_douglas_peucker fuel' (drop index points) epsilon;
        Ret (removelast rec_results1 ++ rec_results2)
      else
        match points with
        | [] => Raise IndexError
        | p0 :: _ => Ret [p0; nth end_ points p0]
        end
  end.

(** ** simplify_points *)

(** The test and append of the dedup pass, for one candidate point [p]. *)
Definition dedup_step (dedup : list point) (p : point) : list point :=
  let q := List.last dedup origin in
  if decide (0.5 < hypot (p.1 - q.1) (p.2 - q.2)) then dedup ++ [p] else dedup.

(** The dedup pre-pass: the loop over [points[1:]], then the same test once
    more on [points[-1]]. *)
Definition dedup_points (points : list point) : outcome (list point) :=
  match points with
  | [] => Raise IndexError
  | p0 :: rest =>
      let dedup := fold_left dedup_step rest [p0] in
      Ret (dedup_step dedup (List.last points p0))
  end.

Definition simplify_points (fuel : nat) (points : list point) (tolerance : R)
  : outcome (list point) :=
  dedup ← dedup_points points;
  ramer_douglas_peucker fuel dedup tolerance.

(** ** symmetrize_arrow *)

(** Consecutive equal points collapsed. *)
Definition unique_points_of (points : list point) : list point :=
  match points with
  | [] => []
  | p0 :: rest =>
      fold_left (fun unique_points p =>
                   if decide (p = List.last unique_points p0)
                   then unique_points else unique_points ++ [p])
                rest [p0]
  end.

(** [max(range(len(l)), key=lambda i: l[i][0])]: the first index whose
    point has the largest x. *)
Definition argmax_x (l : list point) : nat :=
  fold_left (fun best i =>
               if decide ((nth best l origin).1 < (nth i l origin).1) then i else best)
            (seq 1 (length l - 1)) 0%nat.

(** The walk along one arm: points are collected until one lies more than
    0.1 below the axis. *)
Fixpoint collect_arm (axis_y : R) (l : list point) : list point :=
  match l with
  | [] => []
  | p :: rest =>
      if decide (axis_y + 0.1 < p.2) then [] else p :: collect_arm axis_y rest
  end.

(** [sorted(l, key=key)]: a stable sort. *)
Fixpoint insert_by_key (key : point -> R) (p : point) (l : list point) : list point :=
  match l with
  | [] => [p]
  | q :: rest =>
      if decide (key p <= key q) then p :: q :: rest
      else q :: insert_by_key key p rest
  end.

Definition sorted_by_key (key : point -> R) (l : list point) : list point :=
  foldr (insert_by_key key) [] l.

Definition connectivity_warning : string :=
  "Warning: Could not determine detailed connectivity. Using geometric filter.".

(** The tip: the first point of largest x. *)
Definition tip_of (unique_points : list point) : point :=
  nth (argmax_x unique_points) unique_points origin.

(** [unique_points[tip_idx:] + unique_points[:tip_idx]] *)
Definition rotated_of (unique_points : list point) : list point :=
  let tip_idx := argmax_x unique_points in
  drop tip_idx unique_points ++ take tip_idx unique_points.

Definition forward_is_top (rotated : list point) (axis_y : R) : bool :=
  let p_next := if (1 <? length rotated)%nat then nth 1 rotated origin
                else nth 0 rotated origin in
  bool_decide (p_next.2 < axis_y).

Definition backward_is_top (rotated : list point) (axis_y : R) : bool :=
  let p_prev := List.last rotated origin in
  bool_decide (p_prev.2 < axis_y).

(** The geometric filter of the last branch. *)
Definition geometric_filter (unique_points : list point) (tip : point) : list point :=
  let axis_y := tip.2 in
  let candidates := filter (fun p => p.2 <= axis_y + 0.5) unique_points in
  let top_points := sorted_by_key (fun p => - p.1) candidates in
  filter (fun p => p <> tip) top_points.

(** The collected top arm of a non-empty [unique_points], with the lines
    printed on the way. *)
Definition top_arm (unique_points : list point) : list point * list string :=
  let tip := tip_of unique_points in
  let axis_y := tip.2 in
  let rotated := rotated_of unique_points in
  if forward_is_top rotated axis_y then
    (collect_arm axis_y (drop 1 rotated), [])
  else if backward_is_top rotated axis_y then
    (collect_arm axis_y (rev (removelast rotated)), [])
  else
    (geometric_filter unique_points tip, [connectivity_warning]).

(** The mirror image of [p] across the horizontal line [y = axis_y]. *)
Definition mirror (axis_y : R) (p : point) : point := (p.1, 2 * axis_y - p.2).

(** From the collected top arm to the final polygon: the notch is put on
    the axis, the bottom arm is the mirror image of the top arm without the
    notch, in reverse, and the loop is closed at the tip. *)
Definition mirrored_outline (tip : point) (top_points : list point) : list point :=
  let axis_y := tip.2 in
  let notch := List.last top_points origin in
  let notch := (notch.1, axis_y) in
  let top_points := <[(length top_points - 1)%nat := notch]> top_points in
  let bottom_points := map (mirror axis_y) (rev (removelast top_points)) in
  let final := [tip] ++ top_points ++ bottom_points in
  final ++ [tip].

(** The result and the lines printed. *)
Definition symmetrize_arrow (points : list point) : list point * list string :=
  let unique_points := unique_points_of points in
  match unique_points with
  | [] => (points, [])
  | _ :: _ =>
      let tip := tip_of unique_points in
      let '(top_points, printed) := top_arm unique_points in
      match top_points with
      | [] => (points, printed)
      | _ :: _ => (mirrored_outline tip top_points, printed)
      end
  end.

(** ** Notions the statements below are phrased with *)

(** The loop of [rdp_scan] read off the interior points: [g] is the distance
    to the chord, [i] the index of the head of [mid]. *)
Fixpoint scan_from (g : point -> R) (mid : list point) (i : nat) (acc : nat * R)
  : nat * R :=
  match mid with
  | [] => acc
  | m :: rest =>
      scan_from g rest (S i) (if decide (acc.2 < g m) then (i, g m) else acc)
  end.

(** A polyline cut into segments: each segment is the run of dropped points
    and the kept point that ends it. *)
Definition segment : Type := list point * point.

(** All points of the polyline that starts at [p]. *)
Definition chain_input (p : point) (segs : list segment) : list point :=
  p :: flat_map (fun sg : segment => sg.1 ++ [sg.2]) segs.

(** Its kept points. *)
Definition chain_kept (p : point) (segs : list segment) : list point :=
  p :: map snd segs.

(** Every dropped point is within [eps] of the chord that joins the kept
    points around it. *)
Fixpoint chain_within (eps : R) (p : point) (segs : list segment) : Prop :=
  match segs with
  | [] => True
  | (dropped, q) :: rest =>
      Forall (fun m => perpendicular_distance m p q <= eps) dropped
      /\ chain_within eps q rest
  end.

(** The characters of a literal, and what makes a literal one that
    [scan_number] can have cut. *)
Definition lit_chars (l : literal) : list ascii :=
  opt_char (lit_sign l) ++ lit_int l
  ++ match lit_frac l with Some fs => "."%char :: fs | None => [] end
  ++ match lit_exp l with
     | Some (e, sg, ds) => e :: opt_char sg ++ ds
     | None => []
     end.

Definition all_digits (ds : list ascii) : Prop :=
  Forall (fun c => is_digit c = true) ds.

Definition sign_ok (sg : option ascii) : Prop :=
  match sg with Some c => is_sign c = true | None => True end.

Record literal_wf (l : literal) : Prop := LiteralWf {
  wf_sign : sign_ok (lit_sign l);
  wf_int : all_digits (lit_int l);
  wf_frac : match lit_frac l with
            | Some fs => all_digits fs /\ fs <> []
            | None => lit_int l <> []
            end;
  wf_exp : match lit_exp l with
           | Some (e, sg, ds) =>
               (Ascii.eqb e "e" || Ascii.eqb e "E") = true
               /\ sign_ok sg /\ all_digits ds /\ ds <> []
           | None => True
           end
}.

(** An outcome that is a result with the property [P], or [ValueError]. *)
Definition returns_or_value_error {A : Type} (P : A -> Prop) (o : outcome A) : Prop :=
  match o with
  | Ret a => P a
  | Raise e => e = ValueError
  | OutOfFuel => False
  end.

(** The number of arguments a command reads. *)
Definition arity (cmd : string) : nat :=
  if String.eqb cmd "M" then 2
  else if String.eqb cmd "L" then 2
  else if String.eqb cmd "C" then 6
  else 0.

(** Every two neighbours of a list are related by [rel]. *)
Fixpoint adjacent (rel : point -> point -> Prop) (l : list point) : Prop :=
  match l with
  | p :: (q :: _) as tl => rel p q /\ adjacent rel tl
  | _ => True
  end.

(** More than 0.5 apart, as the dedup pass measures it. *)
Definition far_apart (p q : point) : Prop :=
  0.5 < hypot (q.1 - p.1) (q.2 - p.2).


(** * Proofs *)

(** ** The fuel of the token scans *)

Lemma span_digits_length (s ds tl : list ascii) :
  span_digits s = (ds, tl) -> length s = (length ds + length tl)%nat.
Proof.
  revert ds tl. induction s as [|c s IH]; intros ds tl; simpl.
  - by intros [= <- <-].
  - destruct (is_digit c).
    + destruct (span_digits s) as [ds' tl'] eqn:Hs. intros [= <- <-].
      simpl. by rewrite (IH ds' tl').
    + by intros [= <- <-].
Qed.

Lemma take_sign_length (s s1 : list ascii) (sg : option ascii) :
  take_sign s = (sg, s1) -> (length s1 <= length s)%nat.
Proof.
  destruct s as [|c s]; simpl; [by intros [= <- <-]|].
  destruct (is_sign c); intros [= <- <-]; simpl; lia.
Qed.

Lemma scan_mantissa_length (s ds s2 : list ascii) (fs : option (list ascii)) :
  scan_mantissa s = Some (ds, fs, s2) -> (length s2 < length s)%nat.
Proof.
  unfold scan_mantissa.
  destruct (span_digits s) as [ds' tl] eqn:Hs.
  apply span_digits_length in Hs.
  assert (Hplain : match ds' with [] => None | _ :: _ => Some (ds', None, tl) end
                   = Some (ds, fs, s2) -> (length s2 < length s)%nat).
  { destruct ds'; [done|]. intros [= <- <- <-]. simpl in Hs. lia. }
  destruct tl as [|c s3]; [done|].
  destruct (Ascii.eqb c "."); [|done].
  destruct (span_digits s3) as [fs' s4] eqn:Hf.
  apply span_digits_length in Hf.
  destruct fs'; [done|]. intros [= <- <- <-]. simpl in *. lia.
Qed.

Lemma scan_exponent_length (s s3 : list ascii)
    (ex : option (ascii * option ascii * list ascii)) :
  scan_exponent s = (ex, s3) -> (length s3 <= length s)%nat.
Proof.
  destruct s as [|e s1]; simpl; [by intros [= <- <-]|].
  destruct (Ascii.eqb e "e" || Ascii.eqb e "E"); [|by intros [= <- <-]].
  destruct (take_sign s1) as [sg s2] eqn:Hsg. apply take_sign_length in Hsg.
  destruct (span_digits s2) as [ds tl] eqn:Hds. apply span_digits_length in Hds.
  destruct ds; intros [= <- <-]; simpl in *; lia.
Qed.

Lemma scan_number_length (s rest : list ascii) (l : literal) :
  scan_number s = Some (l, rest) -> (length rest < length s)%nat.
Proof.
  unfold scan_number.
  destruct (take_sign s) as [sg s1] eqn:Hsg. apply take_sign_length in Hsg.
  destruct (scan_mantissa s1) as [[[ds fs] s2]|] eqn:Hm; [|done].
  apply scan_mantissa_length in Hm.
  destruct (scan_exponent s2) as [ex s3] eqn:He.
  apply scan_exponent_length in He. intros [= <- <-]. lia.
Qed.

(** Every round of [findall_tokens] consumes a character: fuel beyond the
    length of the string changes nothing. *)
Lemma findall_tokens_fuel (fuel : nat) (s : list ascii) :
  (length s <= fuel)%nat -> findall_tokens fuel s = findall_tokens (length s) s.
Proof.
  assert (H : forall n fuel1 fuel2 s,
             (length s <= n)%nat -> (length s <= fuel1)%nat ->
             (length s <= fuel2)%nat ->
             findall_tokens fuel1 s = findall_tokens fuel2 s).
  { clear. induction n as [|n IH]; intros fuel1 fuel2 s Hn H1 H2.
    - destruct s; [|simpl in Hn; lia]. by destruct fuel1, fuel2.
    - destruct s as [|c rest]; [by destruct fuel1, fuel2|].
      destruct fuel1 as [|fuel1], fuel2 as [|fuel2]; simpl in *; try lia.
      destruct (is_alpha c).
      + f_equal. apply IH; lia.
      + destruct (scan_number (c :: rest)) as [[l rest']|] eqn:Hscan.
        * apply scan_number_length in Hscan. simpl in Hscan.
          f_equal. apply IH; lia.
        * apply IH; lia. }
  intros Hfuel. by apply (H (length s)).
Qed.




(** ** The scan of the interior points *)

Section Scan.
Variable g : point -> R.

Lemma scan_from_app A B i acc :
  scan_from g (A ++ B) i acc
  = scan_from g B (i + length A) (scan_from g A i acc).
Proof.
  revert i acc. induction A as [|a A IH]; intros i acc; simpl.
  - by rewrite Nat.add_0_r.
  - rewrite IH. f_equal. lia.
Qed.

Lemma scan_from_below mid i acc :
  Forall (fun m => g m <= acc.2) mid -> scan_from g mid i acc = acc.
Proof.
  intros Hall. revert i.
  induction Hall as [|m mid Hm _ IH]; intros i; simpl; [done|].
  rewrite decide_False by lra. apply IH.
Qed.

Lemma scan_from_lt A i acc c :
  Forall (fun m => g m < c) A -> acc.2 < c -> (scan_from g A i acc).2 < c.
Proof.
  intros HA. revert i acc.
  induction HA as [|a A Ha _ IH]; intros i acc Hacc; simpl; [done|].
  apply IH. by case_decide.
Qed.

(** The loop stops on the first point of largest distance. *)
Lemma scan_from_peak A s B i acc :
  Forall (fun m => g m < g s) A -> Forall (fun m => g m <= g s) B ->
  acc.2 < g s ->
  scan_from g (A ++ s :: B) i acc = ((i + length A)%nat, g s).
Proof.
  intros HA HB Hacc. rewrite scan_from_app. simpl.
  rewrite decide_True by (by apply scan_from_lt).
  by apply scan_from_below.
Qed.

Lemma scan_from_spec mid i acc :
  (scan_from g mid i acc = acc /\ Forall (fun m => g m <= acc.2) mid)
  \/ (exists A s B,
        mid = A ++ s :: B
        /\ scan_from g mid i acc = ((i + length A)%nat, g s)
        /\ acc.2 < g s
        /\ Forall (fun m => g m < g s) A
        /\ Forall (fun m => g m <= g s) B).
Proof.
  revert i acc. induction mid as [|m mid IH]; intros i acc; simpl.
  - left. by split.
  - destruct (IH (S i) (if decide (acc.2 < g m) then (i, g m) else acc))
      as [[Heq Hall] | (A & s & B & -> & Heq & Hlt & HA & HB)].
    + case_decide as Hm; simpl in *.
      * right. exists [], m, mid. simpl. rewrite Nat.add_0_r. by repeat split.
      * left. split; [done|]. constructor; [lra | done].
    + right. exists (m :: A), s, B. simpl. rewrite Heq.
      repeat split; try done.
      * f_equal. lia.
      * case_decide; simpl in *; lra.
      * constructor; [|done]. case_decide; simpl in *; lra.
Qed.
End Scan.


(** ** ramer_douglas_peucker *)

Lemma Forall_sublist {A : Type} (P : A -> Prop) (l1 l2 : list A) :
  sublist l1 l2 -> Forall P l2 -> Forall P l1.
Proof.
  intros Hsub Hall. apply Forall_forall. intros x Hx.
  rewrite Forall_forall in Hall. apply Hall. by eapply elem_of_sublist.
Qed.

(** The loop of the source, over indices, is the scan of the interior. *)
Lemma scan_fold pts e p0 pre mid rest acc :
  pts = p0 :: pre ++ mid ++ rest ->
  fold_left (rdp_scan_step pts e) (seq (S (length pre)) (length mid)) acc
  = scan_from (fun m => perpendicular_distance m (nth 0 pts origin) (nth e pts origin))
      mid (S (length pre)) acc.
Proof.
  revert pre acc. induction mid as [|m mid IH]; intros pre acc Hpts; [done|].
  specialize (IH (pre ++ [m])). rewrite length_app in IH. simpl in IH.
  rewrite Nat.add_1_r in IH. simpl. rewrite <- IH.
  - f_equal. destruct acc as [index dmax]. unfold rdp_scan_step. simpl.
    replace (nth (S (length pre)) pts origin) with m; [done|].
    subst pts. simpl. by rewrite app_nth2, Nat.sub_diag by lia.
  - by rewrite <- app_assoc.
Qed.

Lemma nth_end (p0 pe d : point) (mid : list point) :
  nth (length (p0 :: mid ++ [pe]) - 1) (p0 :: mid ++ [pe]) d = pe.
Proof.
  simpl. rewrite Nat.sub_0_r, length_app. simpl.
  rewrite Nat.add_1_r. simpl.
  by rewrite app_nth2, Nat.sub_diag by lia.
Qed.

Lemma rdp_scan_mid p0 mid pe :
  rdp_scan (p0 :: mid ++ [pe])
  = scan_from (fun m => perpendicular_distance m p0 pe) mid 1 (0%nat, 0).
Proof.
  unfold rdp_scan.
  pose proof (scan_fold (p0 :: mid ++ [pe]) (length (p0 :: mid ++ [pe]) - 1)
                p0 [] mid [pe] (0%nat, 0) eq_refl) as H.
  rewrite nth_end in H. simpl in H. simpl.
  rewrite Nat.sub_0_r, length_app. simpl.
  replace (length mid + 1 - 1)%nat with (length mid) by lia.
  rewrite Nat.sub_0_r, length_app in H. simpl in H. exact H.
Qed.

(** The two ways out of one call. *)
Lemma rdp_base n pts eps index dmax p0 tl :
  rdp_scan pts = (index, dmax) -> ~ eps < dmax -> pts = p0 :: tl ->
  ramer_douglas_peucker (S n) pts eps = Ret [p0; nth (length pts - 1) pts p0].
Proof.
  intros Hscan Hle ->. cbn [ramer_douglas_peucker]. rewrite Hscan.
  by rewrite decide_False.
Qed.

Lemma rdp_split n pts eps index dmax :
  rdp_scan pts = (index, dmax) -> eps < dmax ->
  ramer_douglas_peucker (S n) pts eps
  = (rec_results1 ← ramer_douglas_peucker n (take (index + 1) pts) eps;
     rec_results2 ← ramer_douglas_peucker n (drop index pts) eps;
     Ret (removelast rec_results1 ++ rec_results2)).
Proof.
  intros Hscan Hlt. cbn [ramer_douglas_peucker]. rewrite Hscan.
  by rewrite decide_True.
Qed.

Lemma take_split (p0 s pe : point) (A B : list point) :
  take (1 + length A + 1) (p0 :: A ++ s :: B ++ [pe]) = p0 :: A ++ [s].
Proof.
  replace (1 + length A + 1)%nat with (S (length (A ++ [s])))
    by (rewrite length_app; simpl; lia).
  simpl. f_equal. change (A ++ s :: B ++ [pe]) with (A ++ [s] ++ (B ++ [pe])).
  rewrite app_assoc. apply take_app_length.
Qed.

Lemma drop_split (p0 s pe : point) (A B : list point) :
  drop (1 + length A) (p0 :: A ++ s :: B ++ [pe]) = s :: B ++ [pe].
Proof. simpl. apply drop_app_length. Qed.

Lemma last_cons_default {A : Type} (l : list A) (q d : A) :
  List.last (q :: l) d = List.last l q.
Proof.
  revert q d. induction l as [|a l IH]; intros q d; [done|].
  change (List.last (q :: a :: l) d) with (List.last (a :: l) d).
  by rewrite !IH.
Qed.

Lemma chain_within_app eps p segs1 segs2 :
  chain_within eps p segs1 ->
  chain_within eps (List.last (map snd segs1) p) segs2 ->
  chain_within eps p (segs1 ++ segs2).
Proof.
  revert p. induction segs1 as [|[dropped q] segs1 IH]; intros p H1 H2; [done|].
  simpl in H1. destruct H1 as [Hd H1]. simpl. split; [done|]. apply IH; [done|].
  change (map snd ((dropped, q) :: segs1)) with (q :: map snd segs1) in H2.
  by rewrite last_cons_default in H2.
Qed.

Lemma last_snoc_default {A : Type} (l : list A) (x d : A) :
  List.last (l ++ [x]) d = x.
Proof. apply last_last. Qed.

(** Fuel beyond what a call needs does not change its result. *)
Lemma rdp_fuel_mono eps n pts out :
  ramer_douglas_peucker n pts eps = Ret out ->
  forall n', (n <= n')%nat -> ramer_douglas_peucker n' pts eps = Ret out.
Proof.
  revert pts out. induction n as [|n IH]; intros pts out Hrun n' Hle; [done|].
  destruct n' as [|n']; [lia|].
  cbn [ramer_douglas_peucker] in *.
  destruct (rdp_scan pts) as [index dmax].
  case_decide; [|done].
  destruct (ramer_douglas_peucker n (take (index + 1) pts) eps) as [r1| |] eqn:H1;
    try done.
  destruct (ramer_douglas_peucker n (drop index pts) eps) as [r2| |] eqn:H2;
    try done.
  rewrite (IH _ _ H1 n'), (IH _ _ H2 n') by lia. exact Hrun.
Qed.

(** A negative tolerance is below every [dmax]: each call recurses. *)
Lemma scan_step_nonneg pts e l acc :
  0 <= acc.2 -> 0 <= (fold_left (rdp_scan_step pts e) l acc).2.
Proof.
  revert acc. induction l as [|i l IH]; intros acc Hacc; [done|].
  simpl. apply IH. destruct acc as [index dmax]. unfold rdp_scan_step.
  simpl in *. case_decide; simpl; lra.
Qed.

Lemma rdp_negative_tolerance eps :
  eps < 0 -> forall fuel pts, ramer_douglas_peucker fuel pts eps = OutOfFuel.
Proof.
  intros Heps. induction fuel as [|fuel IH]; intros pts; [done|].
  cbn [ramer_douglas_peucker].
  pose proof (scan_step_nonneg pts (length pts - 1)
                (seq 1 (length pts - 1 - 1)) (0%nat, 0) (Rle_refl 0)) as Hnn.
  fold (rdp_scan pts) in Hnn. destruct (rdp_scan pts) as [index dmax].
  simpl in Hnn. rewrite decide_True by lra. by rewrite !IH.
Qed.


Lemma removelast_snoc (p0 s : point) (A : list point) :
  removelast (p0 :: A ++ [s]) = p0 :: A.
Proof. rewrite app_comm_cons. apply removelast_last. Qed.

(** Everything the claims need about one run, by induction on the depth:
    the result, that it is drawn from the input in order, the segments it
    cuts the input into, and that a second run leaves it as it is. *)
Lemma rdp_spec eps :
  0 <= eps ->
  forall n p0 mid pe, (length mid <= n)%nat ->
  exists mid' segs,
    ramer_douglas_peucker (S n) (p0 :: mid ++ [pe]) eps = Ret (p0 :: mid' ++ [pe])
    /\ sublist mid' mid
    /\ mid ++ [pe] = flat_map (fun sg : segment => sg.1 ++ [sg.2]) segs
    /\ mid' ++ [pe] = map snd segs
    /\ chain_within eps p0 segs
    /\ (forall n2, (length mid' <= n2)%nat ->
          ramer_douglas_peucker (S n2) (p0 :: mid' ++ [pe]) eps
          = Ret (p0 :: mid' ++ [pe])).
Proof.
  intros Heps.
  assert (Hpair : forall n2 p0 pe,
             ramer_douglas_peucker (S n2) (p0 :: [] ++ [pe]) eps = Ret (p0 :: [] ++ [pe])).
  { intros n2 p0 pe.
    by rewrite (rdp_base n2 _ eps 0%nat 0 p0 [pe]) by (done || simpl; lra). }
  assert (Hflat : forall n p0 mid pe,
             Forall (fun m => perpendicular_distance m p0 pe <= eps) mid ->
             forall index dmax,
               rdp_scan (p0 :: mid ++ [pe]) = (index, dmax) -> ~ eps < dmax ->
               exists mid' segs,
                 ramer_douglas_peucker (S n) (p0 :: mid ++ [pe]) eps
                 = Ret (p0 :: mid' ++ [pe])
                 /\ sublist mid' mid
                 /\ mid ++ [pe] = flat_map (fun sg : segment => sg.1 ++ [sg.2]) segs
                 /\ mid' ++ [pe] = map snd segs
                 /\ chain_within eps p0 segs
                 /\ (forall n2, (length mid' <= n2)%nat ->
                       ramer_douglas_peucker (S n2) (p0 :: mid' ++ [pe]) eps
                       = Ret (p0 :: mid' ++ [pe]))).
  { intros n p0 mid pe Hall index dmax Hscan Hle.
    exists [], [(mid, pe)]. split_and!.
    - rewrite (rdp_base n _ eps index dmax p0 (mid ++ [pe])) by done.
      by rewrite nth_end.
    - apply sublist_nil_l.
    - simpl. by rewrite app_nil_r.
    - done.
    - simpl. by split.
    - intros n2 _. apply Hpair. }
  induction n as [|n IH]; intros p0 mid pe Hlen.
  - destruct mid; [|simpl in Hlen; lia].
    apply (Hflat 0%nat p0 [] pe) with (index := 0%nat) (dmax := 0);
      [by constructor | done | lra].
  - set (g := fun m => perpendicular_distance m p0 pe).
    destruct (scan_from_spec g mid 1 (0%nat, 0))
      as [[Hscan Hall] | (A & s & B & -> & Hscan & Hpos & HA & HB)].
    + apply (Hflat (S n) p0 mid pe) with (index := 0%nat) (dmax := 0).
      * eapply Forall_impl; [exact Hall|]. simpl. intros m Hm. fold (g m). lra.
      * by rewrite rdp_scan_mid.
      * lra.
    + simpl in Hpos.
      destruct (decide (eps < g s)) as [Hsplit | Hkeep].
      * rewrite length_app in Hlen. simpl in Hlen.
        destruct (IH p0 A s ltac:(lia))
          as (A' & segsA & HrunA & HsubA & HinA & HkeptA & HwA & HagainA).
        destruct (IH s B pe ltac:(lia))
          as (B' & segsB & HrunB & HsubB & HinB & HkeptB & HwB & HagainB).
        exists (A' ++ s :: B'), (segsA ++ segsB). split_and!.
        -- rewrite (rdp_split (S n) _ eps (1 + length A) (g s));
             [|by rewrite rdp_scan_mid|done].
           rewrite <- app_assoc. simpl app.
           rewrite take_split, (drop_split p0 s pe A B), HrunA, HrunB.
           unfold mbind, outcome_bind.
           rewrite removelast_snoc. simpl. by rewrite <- app_assoc.
        -- apply sublist_app; [done|]. by apply sublist_skip.
        -- rewrite flat_map_app, <- HinA, <- HinB, <- !app_assoc. done.
        -- rewrite map_app. trans ((A' ++ [s]) ++ (B' ++ [pe])).
           ++ by rewrite <- !app_assoc.
           ++ by f_equal.
        -- apply chain_within_app; [done|].
           by rewrite <- HkeptA, last_snoc_default.
        -- intros n2 Hn2. rewrite length_app in Hn2. simpl in Hn2.
           destruct n2 as [|n2]; [lia|].
           rewrite (rdp_split (S n2) _ eps (1 + length A') (g s)).
           ++ rewrite <- app_assoc. simpl app.
              rewrite take_split, (drop_split p0 s pe A' B').
              rewrite HagainA, HagainB by lia. unfold mbind, outcome_bind.
              by rewrite removelast_snoc.
           ++ rewrite rdp_scan_mid. apply (scan_from_peak g); [| |done].
              ** by eapply Forall_sublist.
              ** by eapply Forall_sublist.
           ++ done.
      * apply (Hflat (S n) p0 (A ++ s :: B) pe)
          with (index := (1 + length A)%nat) (dmax := g s).
        -- apply Forall_app. split; [|constructor].
           ++ eapply Forall_impl; [exact HA|]. simpl. intros m Hm. fold (g m). lra.
           ++ fold (g s). lra.
           ++ eapply Forall_impl; [exact HB|]. simpl. intros m Hm. fold (g m). lra.
        -- by rewrite rdp_scan_mid.
        -- done.
Qed.


Lemma two_points_shape (points : list point) :
  (2 <= length points)%nat -> exists p0 mid pe, points = p0 :: mid ++ [pe].
Proof.
  destruct points as [|p0 tl]; simpl; [lia|]. intros Hlen.
  destruct (exists_last (l := tl)) as (mid & pe & ->).
  - destruct tl; [simpl in Hlen; lia | done].
  - by exists p0, mid, pe.
Qed.

(** The run of [rdp_spec] at any fuel that covers the length of the input. *)
Lemma rdp_enough_fuel eps p0 mid pe out :
  ramer_douglas_peucker (S (length mid)) (p0 :: mid ++ [pe]) eps = Ret out ->
  forall fuel, (length (p0 :: mid ++ [pe]) <= S fuel)%nat ->
    ramer_douglas_peucker fuel (p0 :: mid ++ [pe]) eps = Ret out.
Proof.
  intros Hrun fuel Hfuel. apply (rdp_fuel_mono _ _ _ _ Hrun).
  simpl in Hfuel. rewrite length_app in Hfuel. simpl in Hfuel. lia.
Qed.

(** C1: for at least two points and a tolerance [epsilon >= 0],
    [ramer_douglas_peucker] returns, and its result cuts the input into
    segments between consecutive kept points such that every dropped point
    lies within perpendicular distance [epsilon] (as the algorithm measures
    it) of the chord of its segment. *)
Theorem rdp_within_tolerance (points : list point) (epsilon : R) :
  (2 <= length points)%nat -> 0 <= epsilon ->
  exists out p0 segs,
    (forall fuel, (length points <= S fuel)%nat ->
       ramer_douglas_peucker fuel points epsilon = Ret out)
    /\ points = chain_input p0 segs
    /\ out = chain_kept p0 segs
    /\ chain_within epsilon p0 segs.
Proof.
  intros Hlen Heps.
  destruct (two_points_shape points Hlen) as (p0 & mid & pe & ->).
  destruct (rdp_spec epsilon Heps (length mid) p0 mid pe (le_n _))
    as (mid' & segs & Hrun & _ & Hin & Hkept & Hwithin & _).
  exists (p0 :: mid' ++ [pe]), p0, segs. split_and!.
  - by apply rdp_enough_fuel.
  - unfold chain_input. by f_equal.
  - unfold chain_kept. by f_equal.
  - done.
Qed.

Lemma rdp_within_tolerance_witness :
  exists out p0 segs,
    (forall fuel, (length [(0, 0); (1, 3); (2, 0)] <= S fuel)%nat ->
       ramer_douglas_peucker fuel [(0, 0); (1, 3); (2, 0)] 1 = Ret out)
    /\ [(0, 0); (1, 3); (2, 0)] = chain_input p0 segs
    /\ out = chain_kept p0 segs
    /\ chain_within 1 p0 segs.
Proof.
  apply (rdp_within_tolerance [(0, 0); (1, 3); (2, 0)] 1).
  - simpl. lia.
  - lra.
Defined.

(** C9 holds for tolerances [epsilon >= 0]: the result is drawn from the
    input in order, has at least two points, and starts and ends as the
    input does. *)
Theorem rdp_subsequence (points : list point) (epsilon : R) :
  (2 <= length points)%nat -> 0 <= epsilon ->
  exists out,
    (forall fuel, (length points <= S fuel)%nat ->
       ramer_douglas_peucker fuel points epsilon = Ret out)
    /\ sublist out points
    /\ (2 <= length out)%nat
    /\ head out = head points
    /\ last out = last points.
Proof.
  intros Hlen Heps.
  destruct (two_points_shape points Hlen) as (p0 & mid & pe & ->).
  destruct (rdp_spec epsilon Heps (length mid) p0 mid pe (le_n _))
    as (mid' & segs & Hrun & Hsub & _).
  exists (p0 :: mid' ++ [pe]). split_and!.
  - by apply rdp_enough_fuel.
  - apply sublist_skip, sublist_app; done.
  - simpl. rewrite length_app. simpl. lia.
  - done.
  - by rewrite !app_comm_cons, !last_snoc.
Qed.

Lemma rdp_subsequence_witness :
  exists out,
    (forall fuel, (length [(0, 0); (1, 3); (2, 0); (3, 0)] <= S fuel)%nat ->
       ramer_douglas_peucker fuel [(0, 0); (1, 3); (2, 0); (3, 0)] 1 = Ret out)
    /\ sublist out [(0, 0); (1, 3); (2, 0); (3, 0)]
    /\ (2 <= length out)%nat
    /\ head out = head [(0, 0); (1, 3); (2, 0); (3, 0)]
    /\ last out = last [(0, 0); (1, 3); (2, 0); (3, 0)].
Proof.
  apply (rdp_subsequence [(0, 0); (1, 3); (2, 0); (3, 0)] 1).
  - simpl. lia.
  - lra.
Defined.

(** C9 as stated, for every tolerance, fails: with a negative tolerance the
    call never returns, whatever the fuel. *)
Lemma rdp_subsequence_negative_tolerance :
  ~ exists fuel out, ramer_douglas_peucker fuel [(0, 0); (1, 0)] (-1) = Ret out.
Proof.
  intros (fuel & out & Hrun).
  by rewrite rdp_negative_tolerance in Hrun by lra.
Qed.

(** C3 holds for tolerances [epsilon >= 0]: simplifying the result once
    more with the same tolerance returns it unchanged. *)
Theorem rdp_idempotent (points : list point) (epsilon : R) :
  (2 <= length points)%nat -> 0 <= epsilon ->
  exists out,
    (forall fuel, (length points <= S fuel)%nat ->
       ramer_douglas_peucker fuel points epsilon = Ret out)
    /\ (forall fuel, (length out <= S fuel)%nat ->
          ramer_douglas_peucker fuel out epsilon = Ret out).
Proof.
  intros Hlen Heps.
  destruct (two_points_shape points Hlen) as (p0 & mid & pe & ->).
  destruct (rdp_spec epsilon Heps (length mid) p0 mid pe (le_n _))
    as (mid' & segs & Hrun & _ & _ & _ & _ & Hagain).
  exists (p0 :: mid' ++ [pe]). split.
  - by apply rdp_enough_fuel.
  - apply rdp_enough_fuel. by apply Hagain.
Qed.

Lemma rdp_idempotent_witness :
  exists out,
    (forall fuel, (length [(0, 0); (1, 3); (2, 0)] <= S fuel)%nat ->
       ramer_douglas_peucker fuel [(0, 0); (1, 3); (2, 0)] 1 = Ret out)
    /\ (forall fuel, (length out <= S fuel)%nat ->
          ramer_douglas_peucker fuel out 1 = Ret out).
Proof.
  apply (rdp_idempotent [(0, 0); (1, 3); (2, 0)] 1).
  - simpl. lia.
  - lra.
Defined.

(** C3 as stated, for every tolerance, fails: with a negative tolerance
    there is no result to simplify a second time. *)
Lemma rdp_idempotent_negative_tolerance :
  ~ exists fuel out,
      ramer_douglas_peucker fuel [(0, 0); (1, 1); (2, 0)] (-1) = Ret out
      /\ exists fuel', ramer_douglas_peucker fuel' out (-1) = Ret out.
Proof.
  intros (fuel & out & Hrun & _).
  by rewrite rdp_negative_tolerance in Hrun by lra.
Qed.


(** Two small runs: a point 3 away from the chord is kept at tolerance 1, a
    point 0.5 away is dropped. *)
Lemma hypot_horizontal (x : R) : 0 <= x -> hypot x 0 = x.
Proof.
  intros Hx. unfold hypot. replace (x * x + 0 * 0) with (x * x) by ring.
  by apply sqrt_square.
Qed.

Lemma distance_to_horizontal_chord (x y : R) :
  perpendicular_distance (x, y) (0, 0) (2, 0) = Rabs y.
Proof.
  unfold perpendicular_distance. rewrite decide_False by (intros [=]; lra).
  replace (2 - 0) with 2 by ring. replace (0 - 0) with 0 by ring.
  rewrite hypot_horizontal by lra.
  replace (0 * x - 2 * y + 2 * 0 - 0 * 0) with (- (2 * y)) by ring.
  rewrite Rabs_Ropp, Rabs_mult, (Rabs_right 2) by lra. field.
Qed.

Example rdp_keeps_far_point :
  ramer_douglas_peucker 2 [(0, 0); (1, 3); (2, 0)] 1
  = Ret [(0, 0); (1, 3); (2, 0)].
Proof.
  assert (Hpair : forall p q : point, rdp_scan [p; q] = (0%nat, 0)) by done.
  rewrite (rdp_split 1 _ 1 1%nat 3).
  - change (take (1 + 1) [(0, 0); (1, 3); (2, 0)]) with [(0, 0); (1, 3)].
    change (drop 1 [(0, 0); (1, 3); (2, 0)]) with [(1, 3); (2, 0)].
    rewrite (rdp_base 0 [(0, 0); (1, 3)] 1 0%nat 0 (0, 0) [(1, 3)])
      by (done || lra).
    rewrite (rdp_base 0 [(1, 3); (2, 0)] 1 0%nat 0 (1, 3) [(2, 0)])
      by (done || lra).
    done.
  - change [(0, 0); (1, 3); (2, 0)] with ((0, 0) :: [(1, 3)] ++ [(2, 0)]).
    rewrite rdp_scan_mid. cbn [scan_from].
    rewrite distance_to_horizontal_chord, Rabs_right by lra.
    by rewrite decide_True by (simpl; lra).
  - lra.
Qed.

Example rdp_drops_near_point :
  ramer_douglas_peucker 1 [(0, 0); (1, 0.5); (2, 0)] 1 = Ret [(0, 0); (2, 0)].
Proof.
  rewrite (rdp_base 0 _ 1 1%nat 0.5 (0, 0) [(1, 0.5); (2, 0)]).
  - done.
  - change [(0, 0); (1, 0.5); (2, 0)] with ((0, 0) :: [(1, 0.5)] ++ [(2, 0)]).
    rewrite rdp_scan_mid. cbn [scan_from].
    rewrite distance_to_horizontal_chord, Rabs_right by lra.
    by rewrite decide_True by (simpl; lra).
  - lra.
  - done.
Qed.


(** ** hypot *)

Lemma hypot_gt (c x y : R) : 0 <= c -> c * c < x * x + y * y -> c < hypot x y.
Proof.
  intros Hc Hlt. unfold hypot. rewrite <- (sqrt_square c) at 1 by done.
  apply sqrt_lt_1_alt. split; [nra | done].
Qed.

Lemma hypot_le (c x y : R) : 0 <= c -> x * x + y * y <= c * c -> hypot x y <= c.
Proof.
  intros Hc Hle. unfold hypot. rewrite <- (sqrt_square c) by done.
  apply sqrt_le_1_alt. done.
Qed.

Lemma hypot_self (a b : R) : hypot (a - a) (b - b) = 0.
Proof.
  unfold hypot. replace ((a - a) * (a - a) + (b - b) * (b - b)) with 0 by ring.
  apply sqrt_0.
Qed.

(** Settles one test [c < hypot x y] on concrete numbers. *)
Ltac eval_hypot_test :=
  match goal with
  | |- context [decide (?c < hypot ?x ?y)] =>
      first
        [ rewrite (decide_True (P := c < hypot x y)) by (apply hypot_gt; lra)
        | rewrite (decide_False (P := c < hypot x y))
            by (apply Rle_not_lt, hypot_le; lra) ]
  end.

(** ** The dedup pre-pass of simplify_points *)

(** The loop only appends, keeps the order of the points, and ends with a
    kept point within 0.5 of the last point it looked at. *)
Lemma dedup_fold (rest acc : list point) :
  exists ext,
    fold_left dedup_step rest acc = acc ++ ext
    /\ sublist ext rest
    /\ forall p rest', rest = rest' ++ [p] ->
         let q := List.last (acc ++ ext) origin in
         hypot (p.1 - q.1) (p.2 - q.2) <= 0.5.
Proof.
  induction rest as [|p rest IH] using rev_ind.
  - exists []. split_and!; [by rewrite app_nil_r | done |].
    intros p rest' Hnil. by destruct rest'.
  - destruct IH as (ext & Hfold & Hsub & _).
    rewrite fold_left_app. simpl. rewrite Hfold. unfold dedup_step.
    case_decide as Hfar.
    + exists (ext ++ [p]). split_and!.
      * by rewrite app_assoc.
      * by apply sublist_app.
      * intros p' rest' Heq. apply app_inj_tail in Heq as [_ <-].
        simpl. rewrite app_assoc, last_last, hypot_self. lra.
    + exists ext. split_and!.
      * done.
      * by apply sublist_inserts_r.
      * intros p' rest' Heq. apply app_inj_tail in Heq as [_ <-].
        simpl. lra.
Qed.

(** The test after the loop never appends: [points[-1]] is the last point
    the loop looked at. *)
Lemma dedup_closing_test_idle (p0 : point) (rest : list point) :
  dedup_points (p0 :: rest) = Ret (fold_left dedup_step rest [p0]).
Proof.
  unfold dedup_points. f_equal.
  destruct rest as [|p rest _] using rev_ind.
  - simpl. unfold dedup_step. simpl. rewrite hypot_self.
    by rewrite decide_False by lra.
  - destruct (dedup_fold (rest ++ [p]) [p0]) as (ext & Hfold & _ & Hnear).
    rewrite Hfold. unfold dedup_step.
    rewrite app_comm_cons, last_last.
    rewrite decide_False; [done|].
    specialize (Hnear p rest eq_refl). simpl in Hnear. simpl. lra.
Qed.

Lemma last_Some_default {A : Type} (l : list A) (x d : A) :
  last (x :: l) = Some (List.last (x :: l) d).
Proof.
  revert x. induction l as [|y l IH]; intros x; [done|].
  rewrite last_cons_cons, (IH y). done.
Qed.

(** One more point at the end of the input: the pass does what it did on
    the points before it, then tests the new point against the last point
    kept. *)
Lemma dedup_points_snoc (front : list point) (plast : point) :
  front <> [] ->
  exists kept,
    dedup_points front = Ret kept
    /\ dedup_points (front ++ [plast]) = Ret (dedup_step kept plast).
Proof.
  destruct front as [|p0 pre]; [done|]. intros _.
  exists (fold_left dedup_step pre [p0]). split.
  - apply dedup_closing_test_idle.
  - change ((p0 :: pre) ++ [plast]) with (p0 :: (pre ++ [plast])).
    rewrite dedup_closing_test_idle. by rewrite fold_left_app.
Qed.

(** C2, the part the code keeps: on a non-empty sequence the dedup pre-pass
    returns a selection of the input, in order, that starts with the first
    input point and ends within 0.5 units of the last input point.  The last
    point itself is treated as every other point: with [kept] the result of
    the pass on the points before it and [qprev] the last of [kept], it is
    appended when it lies more than 0.5 units from [qprev], and left out
    otherwise. *)
Theorem dedup_keeps_first_and_near_last (points : list point) :
  points <> [] ->
  exists out q plast,
    dedup_points points = Ret out
    /\ sublist out points
    /\ head out = head points
    /\ last out = Some q
    /\ last points = Some plast
    /\ hypot (plast.1 - q.1) (plast.2 - q.2) <= 0.5
    /\ forall front, front <> [] -> points = front ++ [plast] ->
         exists kept qprev,
           dedup_points front = Ret kept
           /\ last kept = Some qprev
           /\ ((0.5 < hypot (plast.1 - qprev.1) (plast.2 - qprev.2)
                /\ out = kept ++ [plast])
               \/ (hypot (plast.1 - qprev.1) (plast.2 - qprev.2) <= 0.5
                   /\ out = kept)).
Proof.
  destruct points as [|p0 rest]; [done|]. intros _.
  rewrite dedup_closing_test_idle.
  destruct (dedup_fold rest [p0]) as (ext & Hfold & Hsub & Hnear).
  exists ([p0] ++ ext), (List.last ([p0] ++ ext) origin),
    (List.last (p0 :: rest) origin).
  split_and!.
  - by rewrite Hfold.
  - by apply sublist_skip.
  - done.
  - apply last_Some_default.
  - apply last_Some_default.
  - destruct rest as [|p rest _] using rev_ind.
    + apply sublist_nil_r in Hsub as ->. simpl. rewrite hypot_self. lra.
    + rewrite app_comm_cons, last_last. apply (Hnear p rest eq_refl).
  - intros front Hne Hsplit.
    destruct (dedup_points_snoc front (List.last (p0 :: rest) origin) Hne)
      as (kept & Hfront & Hrun).
    rewrite <- Hsplit, dedup_closing_test_idle, Hfold in Hrun.
    assert (Hout : [p0] ++ ext
                   = dedup_step kept (List.last (p0 :: rest) origin))
      by congruence.
    clear Hrun. destruct front as [|f0 pre]; [done|].
    rewrite dedup_closing_test_idle in Hfront. injection Hfront as Hkept.
    destruct (dedup_fold pre [f0]) as (ext' & Hfold' & _).
    rewrite Hfold' in Hkept.
    exists kept, (List.last kept origin). split_and!.
    + by rewrite dedup_closing_test_idle, Hfold', Hkept.
    + rewrite <- Hkept. apply last_Some_default.
    + rewrite Hout. unfold dedup_step. case_decide as Hfar.
      * left. done.
      * right. split; [lra | done].
Qed.

Lemma dedup_keeps_first_and_near_last_witness :
  exists out q plast,
    dedup_points [(0, 0); (10, 0); (10.3, 0)] = Ret out
    /\ sublist out [(0, 0); (10, 0); (10.3, 0)]
    /\ head out = head [(0, 0); (10, 0); (10.3, 0)]
    /\ last out = Some q
    /\ last [(0, 0); (10, 0); (10.3, 0)] = Some plast
    /\ hypot (plast.1 - q.1) (plast.2 - q.2) <= 0.5
    /\ forall front, front <> [] ->
         [(0, 0); (10, 0); (10.3, 0)] = front ++ [plast] ->
         exists kept qprev,
           dedup_points front = Ret kept
           /\ last kept = Some qprev
           /\ ((0.5 < hypot (plast.1 - qprev.1) (plast.2 - qprev.2)
                /\ out = kept ++ [plast])
               \/ (hypot (plast.1 - qprev.1) (plast.2 - qprev.2) <= 0.5
                   /\ out = kept)).
Proof.
  apply (dedup_keeps_first_and_near_last [(0, 0); (10, 0); (10.3, 0)]).
  discriminate.
Defined.

(** C2 as stated fails: a last point within 0.5 units of the point kept
    before it is dropped. *)
Lemma dedup_drops_close_last_point :
  dedup_points [(0, 0); (10, 0); (10.3, 0)] = Ret [(0, 0); (10, 0)]
  /\ last [(0, 0); (10, 0)] <> last [(0, 0); (10, 0); (10.3, 0)]
  /\ (10.3, 0) ∉ [(0, 0); (10, 0)].
Proof.
  split_and!.
  - unfold dedup_points. simpl. unfold dedup_step. simpl.
    repeat (eval_hypot_test; simpl). done.
  - simpl. intros [= H]. lra.
  - rewrite !elem_of_cons, elem_of_nil. intros [[= H] | [[= H] | []]]; lra.
Qed.


(** ** float and parse_svg_paths_basic *)

(** [float] of a token, from the parts of its numeral. *)
Lemma float_decimal (tok : string) (neg : bool) (m e : Z) :
  (l ← parse_literal tok; Some (lit_negative l, lit_mantissa l, lit_exponent l))
  = Some (neg, m, e) ->
  float tok = Ret (decimal_value neg m e).
Proof.
  unfold float, lit_value. destruct (parse_literal tok) as [l|]; [|done].
  simpl. by intros [= -> -> ->].
Qed.

Lemma decimal_value_integer (m : Z) : decimal_value false m 0 = IZR m.
Proof. unfold decimal_value. simpl. ring. Qed.

Lemma float_0 : float "0" = Ret 0.
Proof.
  rewrite (float_decimal "0" false 0 0) by (vm_compute; reflexivity).
  by rewrite decimal_value_integer.
Qed.

Lemma float_5 : float "5" = Ret 5.
Proof.
  rewrite (float_decimal "5" false 5 0) by (vm_compute; reflexivity).
  by rewrite decimal_value_integer.
Qed.

Lemma float_10 : float "10" = Ret 10.
Proof.
  rewrite (float_decimal "10" false 10 0) by (vm_compute; reflexivity).
  by rewrite decimal_value_integer.
Qed.

(** One round of the loop, command by command. *)
Lemma parse_M (tx ty : string) (x y : R) (rest : list string) (st : parser_state) :
  float tx = Ret x -> float ty = Ret y ->
  parse_loop ("M" :: tx :: ty :: rest) st
  = parse_loop rest
      {| polygons := flush st; current_poly := [(x, y)];
         current_pos := (x, y); start_pos := (x, y) |}.
Proof. intros Hx Hy. cbn [parse_loop]. by rewrite Hx, Hy. Qed.

Lemma parse_L (tx ty : string) (x y : R) (rest : list string) (st : parser_state) :
  float tx = Ret x -> float ty = Ret y ->
  parse_loop ("L" :: tx :: ty :: rest) st
  = parse_loop rest
      {| polygons := polygons st; current_poly := current_poly st ++ [(x, y)];
         current_pos := (x, y); start_pos := start_pos st |}.
Proof. intros Hx Hy. cbn [parse_loop]. by rewrite Hx, Hy. Qed.

Lemma parse_Z (rest : list string) (st : parser_state) :
  parse_loop ("Z" :: rest) st
  = parse_loop rest
      {| polygons := polygons st; current_poly := current_poly st ++ [start_pos st];
         current_pos := start_pos st; start_pos := start_pos st |}.
Proof. done. Qed.

Lemma parse_other (cmd : string) (args : list string) (st : parser_state) :
  String.eqb cmd "M" = false -> String.eqb cmd "L" = false ->
  String.eqb cmd "C" = false -> String.eqb (upper cmd) "Z" = false ->
  parse_loop (cmd :: args) st = parse_loop args st.
Proof.
  intros HM HL HC HZ. destruct args; cbn [parse_loop]; by rewrite HM, HL, HC, HZ.
Qed.

(** C7: the path data ["M0,0 L10,0 L10,10 Z"] parses to one polygon, the
    closed 4-point polygon [(0,0), (10,0), (10,10), (0,0)]. *)
Theorem parse_closed_triangle :
  tokenize_path "M0,0 L10,0 L10,10 Z"
  = ["M"; "0"; "0"; "L"; "10"; "0"; "L"; "10"; "10"; "Z"]
  /\ parse_svg_paths_basic "M0,0 L10,0 L10,10 Z"
     = Ret [[(0, 0); (10, 0); (10, 10); (0, 0)]].
Proof.
  assert (Htok : tokenize_path "M0,0 L10,0 L10,10 Z"
                 = ["M"; "0"; "0"; "L"; "10"; "0"; "L"; "10"; "10"; "Z"])
    by (vm_compute; reflexivity).
  split; [exact Htok|].
  unfold parse_svg_paths_basic. rewrite Htok.
  rewrite (parse_M "0" "0" 0 0) by apply float_0.
  rewrite (parse_L "10" "0" 10 0) by (apply float_10 || apply float_0).
  rewrite (parse_L "10" "10" 10 10) by apply float_10.
  rewrite parse_Z. done.
Qed.

(** C5 as stated fails: a path with the unsupported command [H] raises
    nothing; [H] and its argument are passed over and the rest is parsed. *)
Lemma unsupported_command_parses :
  tokenize_path "M0,0 H5 L10,0" = ["M"; "0"; "0"; "H"; "5"; "L"; "10"; "0"]
  /\ parse_svg_paths_basic "M0,0 H5 L10,0" = Ret [[(0, 0); (10, 0)]].
Proof.
  assert (Htok : tokenize_path "M0,0 H5 L10,0"
                 = ["M"; "0"; "0"; "H"; "5"; "L"; "10"; "0"])
    by (vm_compute; reflexivity).
  split; [exact Htok|].
  unfold parse_svg_paths_basic. rewrite Htok.
  rewrite (parse_M "0" "0" 0 0) by apply float_0.
  rewrite (parse_other "H") by (vm_compute; reflexivity).
  rewrite (parse_other "5") by (vm_compute; reflexivity).
  rewrite (parse_L "10" "0" 10 0) by (apply float_10 || apply float_0).
  done.
Qed.

(** C5, what the code does instead: a token in command position that is
    none of [M], [L], [C], [Z], [z] raises no error; it is passed over and
    the loop goes on with the next token, its state unchanged. *)
Theorem unknown_command_skipped (cmd : string) (args : list string)
    (st : parser_state) :
  cmd <> "M" -> cmd <> "L" -> cmd <> "C" -> upper cmd <> "Z" ->
  parse_loop (cmd :: args) st = parse_loop args st.
Proof.
  intros HM HL HC HZ. apply parse_other; by apply String.eqb_neq.
Qed.

Lemma unknown_command_skipped_witness :
  parse_loop ("H" :: ["5"; "L"; "10"; "0"]) initial_state
  = parse_loop ["5"; "L"; "10"; "0"] initial_state.
Proof.
  apply (unknown_command_skipped "H" ["5"; "L"; "10"; "0"] initial_state);
    vm_compute; discriminate.
Defined.


(** ** Dot classification *)

Lemma lit_value_decimal (l : literal) (neg : bool) (m e : Z) :
  (lit_negative l, lit_mantissa l, lit_exponent l) = (neg, m, e) ->
  lit_value l = decimal_value neg m e.
Proof. unfold lit_value. by intros [= -> -> ->]. Qed.

(** Evaluates [path_coords] on a concrete string of integer coordinates. *)
Ltac eval_path_coords :=
  unfold path_coords;
  match goal with
  | |- context [findall_coords ?n ?s] =>
      let ls := eval vm_compute in (findall_coords n s) in
      replace (findall_coords n s) with ls by (vm_compute; reflexivity)
  end;
  cbn [map];
  repeat match goal with
    | |- context [lit_value ?l] =>
        let m := eval vm_compute in (lit_mantissa l) in
        rewrite (lit_value_decimal l false m 0) by (vm_compute; reflexivity);
        rewrite decimal_value_integer
    end.

(** The test never divides by zero: it always returns. *)
Lemma is_dot_value (w h : R) :
  is_dot w h
  = Ret (bool_decide (w < 30) && bool_decide (h < 30)
         && bool_decide (0.5 < (if decide (h = 0) then 0 else w / h))
         && bool_decide ((if decide (h = 0) then 0 else w / h) < 2.0)).
Proof.
  unfold is_dot, aspect_ratio, py_div.
  by destruct (decide (h = 0)).
Qed.

Lemma is_dot_true_iff (w h : R) :
  is_dot w h = Ret true
  <-> w < 30 /\ h < 30 /\ h <> 0 /\ 0.5 < w / h < 2.0.
Proof.
  rewrite is_dot_value. split.
  - intros [= H]. rewrite !andb_true_iff, !bool_decide_eq_true in H.
    destruct H as [[[Hw Hh] Hlo] Hhi].
    destruct (decide (h = 0)); [lra | done].
  - intros (Hw & Hh & Hnz & Hlo & Hhi). f_equal.
    rewrite !andb_true_iff, !bool_decide_eq_true.
    by rewrite decide_False by done.
Qed.

Lemma is_dot_zero_height (w : R) : is_dot w 0 = Ret false.
Proof.
  rewrite is_dot_value. f_equal. rewrite decide_True by done.
  rewrite (bool_decide_eq_false_2 (0.5 < 0)) by lra.
  by rewrite andb_false_r.
Qed.

(** What [classify_path] does once the bounding box is known. *)
Lemma classify_path_box (fill d : string) (bb : bounding_box) :
  bounding_box_of (path_coords d) = Ret bb ->
  classify_path fill d
  = if String.eqb (upper fill) "#13161B" then Ret Skipped
    else if decide (900 < bb_w bb) then Ret Skipped
    else
      dot ← is_dot (bb_w bb) (bb_h bb);
      if dot : bool
      then Ret (Dot (bb_cx bb) (bb_cy bb) ((bb_w bb + bb_h bb) / 4))
      else parsed_polys ← parse_svg_paths_basic d; Ret (ArrowFragment parsed_polys).
Proof.
  intros Hbb. unfold classify_path.
  destruct (path_coords d) as [|c coords] eqn:Hcoords; [done|].
  by rewrite Hbb.
Qed.

Lemma arrow_fragment_not_dot (d : string) (cx cy r : R) :
  (parsed_polys ← parse_svg_paths_basic d; Ret (ArrowFragment parsed_polys))
  <> Ret (Dot cx cy r).
Proof. by destruct (parse_svg_paths_basic d). Qed.

(** C4, with the strict bounds of the code: a path that passes the
    background filter is recorded as a dot exactly when its bounding box is
    less than 30 wide and less than 30 high and the ratio of width to height
    lies strictly between 0.5 and 2.0; the record is [(cx, cy, (w+h)/4)].
    A box of 20 by 22 is a dot, one of 40 by 10 is not. *)
Theorem dot_classification (fill d : string) (bb : bounding_box) :
  bounding_box_of (path_coords d) = Ret bb ->
  upper fill <> "#13161B" ->
  (classify_path fill d
   = Ret (Dot (bb_cx bb) (bb_cy bb) ((bb_w bb + bb_h bb) / 4))
   <-> bb_w bb < 30 /\ bb_h bb < 30 /\ bb_h bb <> 0
       /\ 0.5 < bb_w bb / bb_h bb < 2.0)
  /\ (forall cx cy r,
        classify_path fill d = Ret (Dot cx cy r) ->
        cx = bb_cx bb /\ cy = bb_cy bb /\ r = (bb_w bb + bb_h bb) / 4)
  /\ is_dot 20 22 = Ret true
  /\ is_dot 40 10 = Ret false.
Proof.
  intros Hbb Hfill. apply String.eqb_neq in Hfill.
  rewrite (classify_path_box fill d bb Hbb), Hfill.
  split_and!.
  - rewrite <- is_dot_true_iff. split.
    + case_decide; [done|]. rewrite is_dot_value. simpl.
      case_match; [done|]. intros Habs. by apply arrow_fragment_not_dot in Habs.
    + intros Hdot. apply is_dot_true_iff in Hdot as Hbounds.
      rewrite decide_False by lra. by rewrite Hdot.
  - intros cx cy r. case_decide; [done|]. rewrite is_dot_value. simpl.
    case_match.
    + by intros [= -> -> ->].
    + intros Habs. by apply arrow_fragment_not_dot in Habs.
  - apply is_dot_true_iff. lra.
  - rewrite is_dot_value. f_equal.
    rewrite (bool_decide_eq_false_2 (40 < 30)) by lra. done.
Qed.


Lemma path_coords_20_22 : path_coords "M0,0 L20,22" = [0; 0; 20; 22].
Proof. eval_path_coords. done. Qed.

Lemma dot_classification_witness :
  classify_path "#000000" "M0,0 L20,22"
  = Ret (Dot ((Rmax 0 20 + Rmin 0 20) / 2) ((Rmax 0 22 + Rmin 0 22) / 2)
           ((Rmax 0 20 - Rmin 0 20 + (Rmax 0 22 - Rmin 0 22)) / 4)).
Proof.
  apply (dot_classification "#000000" "M0,0 L20,22"
           {| bb_w := Rmax 0 20 - Rmin 0 20; bb_h := Rmax 0 22 - Rmin 0 22;
              bb_cx := (Rmax 0 20 + Rmin 0 20) / 2;
              bb_cy := (Rmax 0 22 + Rmin 0 22) / 2 |}).
  - rewrite path_coords_20_22. reflexivity.
  - vm_compute. discriminate.
  - simpl. rewrite !Rmax_right, !Rmin_left by lra. lra.
Defined.

(** C4 as stated fails twice over.  With the closed interval: a box of 10
    by 20 has the ratio 0.5 and is below 30 both ways, yet is no dot.  And a
    dot-sized path of the background colour is skipped, not recorded. *)
Lemma ratio_one_half_is_no_dot :
  (10 < 30 /\ 20 < 30 /\ 0.5 <= 10 / 20 <= 2.0 /\ is_dot 10 20 = Ret false)
  /\ (is_dot 20 22 = Ret true
      /\ classify_path "#13161b" "M0,0 L20,22" = Ret Skipped).
Proof.
  split_and!; try lra.
  - rewrite is_dot_value. f_equal. rewrite decide_False by lra.
    rewrite (bool_decide_eq_false_2 (0.5 < 10 / 20)) by lra.
    by rewrite andb_false_r.
  - apply is_dot_true_iff. lra.
  - rewrite (classify_path_box _ _
               {| bb_w := Rmax 0 20 - Rmin 0 20; bb_h := Rmax 0 22 - Rmin 0 22;
                  bb_cx := (Rmax 0 20 + Rmin 0 20) / 2;
                  bb_cy := (Rmax 0 22 + Rmin 0 22) / 2 |}).
    + by replace (String.eqb (upper "#13161b") "#13161B") with true
        by (vm_compute; reflexivity).
    + rewrite path_coords_20_22. reflexivity.
Qed.

(** C10: the test never divides by zero, it returns for every width and
    height; with height 0 the ratio is 0, the test is false, and the path is
    never recorded as a dot: past the two filters it is parsed as an arrow
    fragment. *)
Theorem zero_height_is_arrow_fragment (fill d : string) (bb : bounding_box) :
  bounding_box_of (path_coords d) = Ret bb ->
  bb_h bb = 0 ->
  (forall w h, exists dot, is_dot w h = Ret dot)
  /\ aspect_ratio (bb_w bb) (bb_h bb) = Ret 0
  /\ is_dot (bb_w bb) (bb_h bb) = Ret false
  /\ (forall cx cy r, classify_path fill d <> Ret (Dot cx cy r))
  /\ (upper fill <> "#13161B" -> ~ 900 < bb_w bb ->
      classify_path fill d
      = (parsed_polys ← parse_svg_paths_basic d; Ret (ArrowFragment parsed_polys))).
Proof.
  intros Hbb Hh. rewrite (classify_path_box fill d bb Hbb), Hh.
  split_and!.
  - intros w h. rewrite is_dot_value. eauto.
  - unfold aspect_ratio. by rewrite decide_True.
  - apply is_dot_zero_height.
  - intros cx cy r. rewrite is_dot_zero_height. simpl.
    case_match; [done|]. case_decide; [done|]. apply arrow_fragment_not_dot.
  - intros Hfill Hw. apply String.eqb_neq in Hfill.
    by rewrite Hfill, decide_False, is_dot_zero_height.
Qed.

Lemma path_coords_flat : path_coords "M0,5 L10,5" = [0; 5; 10; 5].
Proof. eval_path_coords. done. Qed.

Lemma zero_height_is_arrow_fragment_witness :
  classify_path "#000000" "M0,5 L10,5" = Ret (ArrowFragment [[(0, 5); (10, 5)]]).
Proof.
  destruct (zero_height_is_arrow_fragment "#000000" "M0,5 L10,5"
              {| bb_w := Rmax 0 10 - Rmin 0 10; bb_h := Rmax 5 5 - Rmin 5 5;
                 bb_cx := (Rmax 0 10 + Rmin 0 10) / 2;
                 bb_cy := (Rmax 5 5 + Rmin 5 5) / 2 |})
    as (_ & _ & _ & _ & Harrow).
  - rewrite path_coords_flat. reflexivity.
  - simpl. rewrite Rmax_left, Rmin_left by lra. lra.
  - rewrite Harrow.
    + unfold parse_svg_paths_basic.
      replace (tokenize_path "M0,5 L10,5") with ["M"; "0"; "5"; "L"; "10"; "5"]
        by (vm_compute; reflexivity).
      rewrite (parse_M "0" "5" 0 5) by (apply float_0 || apply float_5).
      rewrite (parse_L "10" "5" 10 5) by (apply float_10 || apply float_5).
      done.
    + vm_compute. discriminate.
    + simpl. rewrite Rmax_right, Rmin_left by lra. lra.
Defined.


(** ** symmetrize_arrow *)

Ltac solve_test :=
  first [ lra | reflexivity | (intros [=]; lra) | (f_equal; lra)
        | (let H := fresh in intros H; by apply H) ].

(** Settles one comparison of concrete numbers or points. *)
Ltac eval_test :=
  match goal with
  | |- context [decide ?P] =>
      first [ rewrite (decide_True (P := P)) by solve_test
            | rewrite (decide_False (P := P)) by solve_test ]
  | |- context [bool_decide ?P] =>
      first [ rewrite (bool_decide_eq_true_2 P) by solve_test
            | rewrite (bool_decide_eq_false_2 P) by solve_test ]
  end.

Ltac eval_tests := repeat (eval_test; cbn).

Lemma unique_points_of_nonempty (p0 : point) (rest : list point) :
  exists tl, unique_points_of (p0 :: rest) = p0 :: tl.
Proof.
  unfold unique_points_of.
  assert (H : forall acc : list point, exists tl,
             fold_left (fun unique_points p =>
                          if decide (p = List.last unique_points p0)
                          then unique_points else unique_points ++ [p])
                       rest (p0 :: acc) = p0 :: tl).
  { induction rest as [|p rest IH]; intros acc; simpl; [by eexists|].
    case_decide; [apply IH | apply (IH (acc ++ [p]))]. }
  apply (H []).
Qed.

Lemma mirrored_outline_snoc (tip notch : point) (top : list point) :
  mirrored_outline tip (top ++ [notch])
  = [tip] ++ top ++ [(notch.1, tip.2)] ++ map (mirror tip.2) (rev top) ++ [tip].
Proof.
  unfold mirrored_outline. rewrite last_last, length_app. simpl length.
  replace (length top + 1 - 1)%nat with (length top + 0)%nat by lia.
  rewrite insert_app_r. simpl. rewrite removelast_last.
  by rewrite <- !app_assoc.
Qed.

(** C6: when the collected top arm is [top] followed by the notch, the
    result is the tip, [top], the notch put on the axis of the tip, the
    mirror images [y' = 2 * axis_y - y] of [top] in reverse, and the tip
    again; so it starts and ends at the tip, and each point of [top] has its
    mirror partner at the mirrored position. *)
Theorem symmetrize_mirrors (points top : list point) (notch : point) :
  (top_arm (unique_points_of points)).1 = top ++ [notch] ->
  points <> [] ->
  let tip := tip_of (unique_points_of points) in
  let axis_y := tip.2 in
  let out := (symmetrize_arrow points).1 in
  out = [tip] ++ top ++ [(notch.1, axis_y)] ++ map (mirror axis_y) (rev top) ++ [tip]
  /\ head out = Some tip
  /\ last out = Some tip
  /\ forall (i : nat) (p : point), top !! i = Some p ->
       out !! (1 + i)%nat = Some p
       /\ out !! (2 * length top + 1 - i)%nat = Some (p.1, 2 * axis_y - p.2).
Proof.
  intros Htop Hne tip axis_y out.
  assert (Hout : out = [tip] ++ top ++ [(notch.1, axis_y)]
                       ++ map (mirror axis_y) (rev top) ++ [tip]).
  { subst out. unfold symmetrize_arrow.
    destruct points as [|p0 rest]; [done|].
    destruct (unique_points_of_nonempty p0 rest) as (tl & Hu).
    fold tip. rewrite Hu in *.
    destruct (top_arm (p0 :: tl)) as [top_points printed]. simpl in Htop.
    subst top_points. rewrite <- mirrored_outline_snoc.
    by destruct top. }
  split_and!.
  - done.
  - by rewrite Hout.
  - rewrite Hout, !app_assoc. apply last_snoc.
  - intros i p Hi. rewrite Hout.
    assert (Hlt : (i < length top)%nat) by (by eapply lookup_lt_Some). split.
    + simpl. by rewrite lookup_app_l.
    + simpl. replace (length top + (length top + 0) + 1 - i)%nat
        with (S (length top + (1 + (length top - 1 - i))))%nat by lia.
      simpl. rewrite lookup_app_r by lia.
      replace (length top + S (length top - 1 - i) - length top)%nat
        with (S (length top - 1 - i)) by lia.
      simpl. rewrite lookup_app_l by (rewrite length_map, length_rev; lia).
      rewrite list_lookup_fmap, rev_alt.
      change (rev_append top []) with (reverse top).
      rewrite reverse_lookup by lia.
      replace (length top - S (length top - 1 - i))%nat with i by lia.
      by rewrite Hi.
Qed.


Lemma symmetrize_mirrors_witness :
  (symmetrize_arrow [(100, 50); (80, 30); (60, 45); (70, 80)]).1
  = [(100, 50); (80, 30); (60, 50); (80, 2 * 50 - 30); (100, 50)].
Proof.
  assert (Hu : unique_points_of [(100, 50); (80, 30); (60, 45); (70, 80)]
               = [(100, 50); (80, 30); (60, 45); (70, 80)]).
  { unfold unique_points_of. cbn. eval_tests. done. }
  assert (Hidx : argmax_x [(100, 50); (80, 30); (60, 45); (70, 80)] = 0%nat).
  { unfold argmax_x. cbn. eval_tests. done. }
  assert (Htip : tip_of (unique_points_of [(100, 50); (80, 30); (60, 45); (70, 80)])
                 = (100, 50)).
  { rewrite Hu. unfold tip_of. by rewrite Hidx. }
  destruct (symmetrize_mirrors [(100, 50); (80, 30); (60, 45); (70, 80)]
              [(80, 30)] (60, 45)) as [Hout _].
  - rewrite Hu. unfold top_arm, tip_of, rotated_of, forward_is_top.
    rewrite Hidx. cbn. eval_tests. done.
  - discriminate.
  - rewrite Hout, Htip. done.
Defined.


(** C8, as the code has it: when the collected top arm is empty the input
    polygon is returned as it is; the warning is printed exactly when
    neither neighbour of the tip lay above the axis, so that the geometric
    filter was used. *)
Theorem empty_top_arm_returns_input (points : list point) :
  points <> [] ->
  (top_arm (unique_points_of points)).1 = [] ->
  let unique_points := unique_points_of points in
  let axis_y := (tip_of unique_points).2 in
  let rotated := rotated_of unique_points in
  (symmetrize_arrow points).1 = points
  /\ (symmetrize_arrow points).2
     = if forward_is_top rotated axis_y || backward_is_top rotated axis_y
       then [] else [connectivity_warning].
Proof.
  intros Hne Hempty unique_points axis_y rotated. subst unique_points.
  unfold symmetrize_arrow.
  destruct points as [|p0 rest]; [done|].
  destruct (unique_points_of_nonempty p0 rest) as (tl & Hu).
  subst axis_y rotated. rewrite Hu in *.
  replace (top_arm (p0 :: tl)) with (([] : list point), (top_arm (p0 :: tl)).2)
    by (rewrite <- Hempty; by destruct (top_arm (p0 :: tl))).
  split; [done|]. simpl. unfold top_arm.
  by destruct (forward_is_top _ _), (backward_is_top _ _).
Qed.

Lemma empty_top_arm_returns_input_witness :
  symmetrize_arrow [(3, 4)] = ([(3, 4)], [connectivity_warning]).
Proof.
  assert (Hu : unique_points_of [(3, 4)] = [(3, 4)]) by done.
  assert (Hidx : argmax_x [(3, 4)] = 0%nat) by done.
  assert (Harm : top_arm [(3, 4)] = ([], [connectivity_warning])).
  { unfold top_arm, tip_of, rotated_of, forward_is_top, backward_is_top,
      geometric_filter. rewrite Hidx. cbn. eval_tests. done. }
  destruct (empty_top_arm_returns_input [(3, 4)]) as [Hout Hprinted].
  - discriminate.
  - by rewrite Hu, Harm.
  - rewrite (surjective_pairing (symmetrize_arrow [(3, 4)])), Hout, Hprinted.
    f_equal. rewrite Hu. unfold tip_of, rotated_of, forward_is_top, backward_is_top.
    rewrite Hidx. cbn. eval_tests. done.
Defined.

(** C8 as stated fails in its warning: here the walk back from the tip
    stops at once, the top arm is empty, and the input is returned with
    nothing printed. *)
Lemma empty_top_arm_without_warning :
  (top_arm (unique_points_of [(10, 5); (5, 9); (0, 0)])).1 = []
  /\ symmetrize_arrow [(10, 5); (5, 9); (0, 0)] = ([(10, 5); (5, 9); (0, 0)], []).
Proof.
  assert (Hu : unique_points_of [(10, 5); (5, 9); (0, 0)]
               = [(10, 5); (5, 9); (0, 0)]).
  { unfold unique_points_of. cbn. eval_tests. done. }
  assert (Hidx : argmax_x [(10, 5); (5, 9); (0, 0)] = 0%nat).
  { unfold argmax_x. cbn. eval_tests. done. }
  assert (Harm : top_arm [(10, 5); (5, 9); (0, 0)] = ([], [])).
  { unfold top_arm, tip_of, rotated_of, forward_is_top, backward_is_top.
    rewrite Hidx. cbn. eval_tests. done. }
  split.
  - by rewrite Hu, Harm.
  - unfold symmetrize_arrow. by rewrite Hu, Harm.
Qed.


(** * Further properties of the code *)

(** ** sample_cubic_bezier *)

Lemma linspace01_length (steps : nat) : length (linspace01 steps) = steps.
Proof. unfold linspace01. by rewrite length_map, length_seq. Qed.

Lemma linspace01_lookup (steps k : nat) :
  (k < steps)%nat -> linspace01 steps !! k = Some (INR k / INR (steps - 1)).
Proof.
  intros Hk. unfold linspace01. rewrite list_lookup_fmap.
  by rewrite lookup_seq_lt.
Qed.

(** The sampled point at parameter [t]. *)
Lemma sample_cubic_bezier_lookup (p0 p1 p2 p3 : point) (steps k : nat) :
  (k < steps)%nat ->
  let t := INR k / INR (steps - 1) in
  sample_cubic_bezier p0 p1 p2 p3 steps !! k
  = Some ((1 - t) ^ 3 * p0.1 + 3 * (1 - t) ^ 2 * t * p1.1
          + 3 * (1 - t) * t ^ 2 * p2.1 + t ^ 3 * p3.1,
          (1 - t) ^ 3 * p0.2 + 3 * (1 - t) ^ 2 * t * p1.2
          + 3 * (1 - t) * t ^ 2 * p2.2 + t ^ 3 * p3.2).
Proof.
  intros Hk t. unfold sample_cubic_bezier.
  rewrite list_lookup_fmap.
  by rewrite linspace01_lookup.
Qed.

Lemma bezier_shape (p0 p1 p2 p3 : point) (steps : nat) :
  (2 <= steps)%nat ->
  length (sample_cubic_bezier p0 p1 p2 p3 steps) = steps
  /\ head (sample_cubic_bezier p0 p1 p2 p3 steps) = Some p0
  /\ last (sample_cubic_bezier p0 p1 p2 p3 steps) = Some p3.
Proof.
  intros Hsteps.
  assert (Hlen : length (sample_cubic_bezier p0 p1 p2 p3 steps) = steps).
  { unfold sample_cubic_bezier. by rewrite length_map, linspace01_length. }
  split_and!; [done| |].
  - rewrite head_lookup, sample_cubic_bezier_lookup by lia.
    destruct p0 as [x0 y0]. simpl. f_equal. f_equal; unfold Rdiv; ring.
  - rewrite last_lookup, Hlen.
    replace (Init.Nat.pred steps) with (steps - 1)%nat by lia.
    rewrite sample_cubic_bezier_lookup by lia.
    assert (Hnz : INR (steps - 1) <> 0) by (apply not_0_INR; lia).
    replace (INR (steps - 1) / INR (steps - 1)) with 1 by (by field).
    destruct p3 as [x3 y3]. simpl. f_equal. f_equal; ring.
Qed.

(** X1: with at least two steps the sampled curve has [steps] points,
    starts at [p0] and ends at [p3]. *)
Theorem bezier_endpoints (p0 p1 p2 p3 : point) (steps : nat) :
  (2 <= steps)%nat ->
  length (sample_cubic_bezier p0 p1 p2 p3 steps) = steps
  /\ head (sample_cubic_bezier p0 p1 p2 p3 steps) = Some p0
  /\ last (sample_cubic_bezier p0 p1 p2 p3 steps) = Some p3.
Proof. apply bezier_shape. Qed.

Lemma bezier_endpoints_witness :
  length (sample_cubic_bezier (0, 0) (1, 2) (3, 2) (4, 0) 20) = 20%nat
  /\ head (sample_cubic_bezier (0, 0) (1, 2) (3, 2) (4, 0) 20) = Some (0, 0)
  /\ last (sample_cubic_bezier (0, 0) (1, 2) (3, 2) (4, 0) 20) = Some (4, 0).
Proof. apply (bezier_endpoints (0, 0) (1, 2) (3, 2) (4, 0) 20). lia. Defined.


(** ** tokenize_path and float *)

(** The character classes of the patterns do not overlap. *)
Lemma digit_class (c : ascii) :
  is_digit c = true ->
  is_sign c = false /\ Ascii.eqb c "." = false
  /\ (Ascii.eqb c "e" || Ascii.eqb c "E") = false.
Proof.
  destruct c as [b0 b1 b2 b3 b4 b5 b6 b7].
  destruct b0, b1, b2, b3, b4, b5, b6, b7; vm_compute; intros H;
    first [discriminate H | by split_and!].
Qed.

Lemma alpha_class (c : ascii) :
  is_alpha c = true ->
  is_digit c = false /\ is_sign c = false /\ Ascii.eqb c "." = false.
Proof.
  destruct c as [b0 b1 b2 b3 b4 b5 b6 b7].
  destruct b0, b1, b2, b3, b4, b5, b6, b7; vm_compute; intros H;
    first [discriminate H | by split_and!].
Qed.

Lemma exponent_mark_class (e : ascii) :
  (Ascii.eqb e "e" || Ascii.eqb e "E") = true ->
  is_digit e = false /\ Ascii.eqb e "." = false.
Proof.
  destruct e as [b0 b1 b2 b3 b4 b5 b6 b7].
  destruct b0, b1, b2, b3, b4, b5, b6, b7; vm_compute; intros H;
    first [discriminate H | by split_and!].
Qed.

Lemma span_digits_spec (s ds tl : list ascii) :
  span_digits s = (ds, tl) ->
  s = ds ++ tl /\ all_digits ds
  /\ match tl with c :: _ => is_digit c = false | [] => True end.
Proof.
  revert ds tl. induction s as [|c s IH]; intros ds tl; simpl.
  - intros [= <- <-]. by split_and!; [|constructor|].
  - destruct (is_digit c) eqn:Hc.
    + destruct (span_digits s) as [ds' tl'] eqn:Hs. intros [= <- <-].
      destruct (IH ds' tl' eq_refl) as (-> & Hds & Htl).
      split_and!; [done | by constructor | done].
    + intros [= <- <-]. by split_and!; [|constructor|].
Qed.

(** Digits followed by something that is no digit are cut where they end. *)
Lemma span_digits_app (ds tl : list ascii) :
  all_digits ds ->
  match tl with c :: _ => is_digit c = false | [] => True end ->
  span_digits (ds ++ tl) = (ds, tl).
Proof.
  intros Hds Htl. induction Hds as [|c ds Hc _ IH]; cbn [app span_digits].
  - destruct tl as [|c tl]; [done|]. cbn [span_digits]. by rewrite Htl.
  - by rewrite Hc, IH.
Qed.

Lemma take_sign_spec (s s1 : list ascii) (sg : option ascii) :
  take_sign s = (sg, s1) -> sign_ok sg.
Proof.
  destruct s as [|c s]; simpl; [by intros [= <- <-]|].
  destruct (is_sign c) eqn:Hc; by intros [= <- <-].
Qed.

Lemma take_sign_some (c : ascii) (s : list ascii) :
  is_sign c = true -> take_sign (c :: s) = (Some c, s).
Proof. intros Hc. simpl. by rewrite Hc. Qed.

Lemma take_sign_none (s : list ascii) :
  match s with c :: _ => is_sign c = false | [] => True end ->
  take_sign s = (None, s).
Proof. destruct s as [|c s]; simpl; [done|]. by intros ->. Qed.

(** What [scan_number] cuts is well formed. *)
Lemma scan_number_wf (s rest : list ascii) (l : literal) :
  scan_number s = Some (l, rest) -> literal_wf l.
Proof.
  unfold scan_number.
  destruct (take_sign s) as [sg s1] eqn:Hsg. apply take_sign_spec in Hsg.
  destruct (scan_mantissa s1) as [[[ds fs] s2]|] eqn:Hm; [|done].
  destruct (scan_exponent s2) as [ex s3] eqn:He. intros [= <- <-].
  assert (Hmant : all_digits ds
                  /\ match fs with
                     | Some fs' => all_digits fs' /\ fs' <> []
                     | None => ds <> []
                     end).
  { unfold scan_mantissa in Hm. revert Hm.
    destruct (span_digits s1) as [ds' tl] eqn:Hs.
    apply span_digits_spec in Hs as (_ & Hds & _).
    assert (Hplain : match ds' with [] => None | _ :: _ => Some (ds', None, tl) end
                     = Some (ds, fs, s2) ->
                     all_digits ds
                     /\ match fs with
                        | Some fs' => all_digits fs' /\ fs' <> []
                        | None => ds <> []
                        end).
    { destruct ds'; [done|]. by intros [= <- <- <-]. }
    destruct tl as [|c s3']; [by apply Hplain|].
    destruct (Ascii.eqb c "."); [|by apply Hplain].
    destruct (span_digits s3') as [fs' s4] eqn:Hf.
    apply span_digits_spec in Hf as (_ & Hfs & _).
    destruct fs'; [by apply Hplain|]. by intros [= <- <- <-]. }
  assert (Hexp : match ex with
                 | Some (e, sg', eds) =>
                     (Ascii.eqb e "e" || Ascii.eqb e "E") = true
                     /\ sign_ok sg' /\ all_digits eds /\ eds <> []
                 | None => True
                 end).
  { destruct s2 as [|e s2']; simpl in He; [by injection He as <- <-|].
    destruct (Ascii.eqb e "e" || Ascii.eqb e "E") eqn:Hmark;
      [|by injection He as <- <-].
    destruct (take_sign s2') as [sg' s2''] eqn:Hsg'.
    apply take_sign_spec in Hsg'.
    destruct (span_digits s2'') as [eds tl] eqn:Heds.
    apply span_digits_spec in Heds as (_ & Heds & _).
    destruct eds; [by injection He as <- <-|]. by injection He as <- <-. }
  destruct Hmant as [Hint Hfrac]. by constructor.
Qed.


Lemma scan_mantissa_rescan (ds E : list ascii) (fs : option (list ascii)) :
  all_digits ds ->
  match fs with
  | Some fs' => all_digits fs' /\ fs' <> []
  | None => ds <> []
  end ->
  match E with
  | c :: _ => is_digit c = false /\ Ascii.eqb c "." = false
  | [] => True
  end ->
  scan_mantissa
    (ds ++ match fs with Some fs' => "."%char :: fs' | None => [] end ++ E)
  = Some (ds, fs, E).
Proof.
  intros Hds Hfs HE. unfold scan_mantissa.
  assert (HEdigit : match E with c :: _ => is_digit c = false | [] => True end)
    by (destruct E; [done | by destruct HE]).
  destruct fs as [fs'|].
  - destruct Hfs as [Hfs Hne].
    change (("."%char :: fs') ++ E) with ("."%char :: fs' ++ E).
    rewrite (span_digits_app ds ("."%char :: fs' ++ E)) by done.
    change (Ascii.eqb "." ".") with true. cbv iota.
    rewrite (span_digits_app fs' E) by done.
    by destruct fs'.
  - simpl app. rewrite (span_digits_app ds E) by done.
    destruct ds as [|d ds]; [done|].
    destruct E as [|c E]; [done|]. destruct HE as [_ ->]. done.
Qed.

Lemma scan_exponent_rescan (ex : option (ascii * option ascii * list ascii)) :
  match ex with
  | Some (e, sg, ds) =>
      (Ascii.eqb e "e" || Ascii.eqb e "E") = true
      /\ sign_ok sg /\ all_digits ds /\ ds <> []
  | None => True
  end ->
  scan_exponent
    match ex with Some (e, sg, ds) => e :: opt_char sg ++ ds | None => [] end
  = (ex, []).
Proof.
  destruct ex as [[[e sg] ds]|]; [|done].
  intros (Hmark & Hsg & Hds & Hne). cbn [scan_exponent]. rewrite Hmark.
  assert (Hsign : take_sign (opt_char sg ++ ds) = (sg, ds)).
  { destruct sg as [c|]; simpl in *; [by rewrite Hsg|].
    apply take_sign_none. destruct Hds as [|d ds Hd _]; [done|].
    by apply digit_class in Hd as [-> _]. }
  rewrite Hsign.
  rewrite <- (app_nil_r ds) at 1. rewrite span_digits_app by done.
  by destruct ds.
Qed.

(** Scanning the text of a well-formed literal gives the literal back and
    leaves nothing. *)
Lemma scan_number_rescan (l : literal) :
  literal_wf l -> scan_number (lit_chars l) = Some (l, []).
Proof.
  destruct l as [sg ds fs ex]. intros [Hsg Hds Hfs Hex]. simpl in *.
  unfold scan_number, lit_chars. simpl.
  assert (HE : match match ex with
                     | Some (e, sg', eds) => e :: opt_char sg' ++ eds
                     | None => []
                     end with
               | c :: _ => is_digit c = false /\ Ascii.eqb c "." = false
               | [] => True
               end).
  { destruct ex as [[[e sg'] eds]|]; [|done].
    destruct Hex as [Hmark _]. by apply exponent_mark_class. }
  assert (Hsign :
            take_sign
              (opt_char sg ++ ds
               ++ match fs with Some fs' => "."%char :: fs' | None => [] end
               ++ match ex with
                  | Some (e, sg', eds) => e :: opt_char sg' ++ eds
                  | None => []
                  end)
            = (sg, ds
                   ++ match fs with Some fs' => "."%char :: fs' | None => [] end
                   ++ match ex with
                      | Some (e, sg', eds) => e :: opt_char sg' ++ eds
                      | None => []
                      end)).
  { destruct sg as [c|]; simpl in *; [by rewrite Hsg|].
    apply take_sign_none.
    destruct Hds as [|d ds Hd _].
    - destruct fs as [fs'|]; [done|]. by destruct Hfs.
    - simpl. by apply digit_class in Hd as [-> _]. }
  rewrite Hsign, scan_mantissa_rescan by done.
  by rewrite scan_exponent_rescan.
Qed.

Lemma float_of_literal (l : literal) :
  literal_wf l -> float (lit_text l) = Ret (lit_value l).
Proof.
  intros Hwf. unfold float, parse_literal.
  change (lit_text l) with (String.string_of_list_ascii (lit_chars l)).
  rewrite String.list_ascii_of_string_of_list_ascii.
  by rewrite scan_number_rescan.
Qed.

Lemma float_of_letter (c : ascii) :
  is_alpha c = true -> float (String c EmptyString) = Raise ValueError.
Proof.
  intros Hc. apply alpha_class in Hc as (Hdigit & Hsign & Hdot).
  unfold float, parse_literal, scan_number. simpl.
  rewrite Hsign. unfold scan_mantissa. simpl. by rewrite Hdigit, Hdot.
Qed.

(** X3: every token of [tokenize_path] is either a single letter, on which
    [float] raises [ValueError], or a numeral, on which [float] returns its
    value: the number pattern cuts nothing that [float] turns down. *)
Theorem token_is_letter_or_float (d tok : string) :
  tok ∈ tokenize_path d ->
  (exists c, is_alpha c = true /\ tok = String c EmptyString
             /\ float tok = Raise ValueError)
  \/ (exists l, literal_wf l /\ tok = lit_text l /\ float tok = Ret (lit_value l)).
Proof.
  unfold tokenize_path. generalize (String.length d) as fuel.
  generalize (String.list_ascii_of_string d) as s. intros s fuel. revert s.
  induction fuel as [|fuel IH]; intros s; simpl; [by rewrite elem_of_nil|].
  destruct s as [|c rest]; [by rewrite elem_of_nil|].
  destruct (is_alpha c) eqn:Hc.
  - rewrite elem_of_cons. intros [-> | Hin]; [|by apply (IH rest)].
    left. exists c. split_and!; [done | done | by apply float_of_letter].
  - destruct (scan_number (c :: rest)) as [[l rest']|] eqn:Hscan;
      [|by apply IH].
    rewrite elem_of_cons. intros [-> | Hin]; [|by apply (IH rest')].
    right. exists l. apply scan_number_wf in Hscan.
    split_and!; [done | done | by apply float_of_literal].
Qed.

Lemma token_is_letter_or_float_witness :
  (exists c, is_alpha c = true /\ "10" = String c EmptyString
             /\ float "10" = Raise ValueError)
  \/ (exists l, literal_wf l /\ "10" = lit_text l /\ float "10" = Ret (lit_value l)).
Proof.
  apply (token_is_letter_or_float "M0,0 L10,0" "10").
  replace (tokenize_path "M0,0 L10,0") with ["M"; "0"; "0"; "L"; "10"; "0"]
    by (vm_compute; reflexivity).
  rewrite !elem_of_cons. do 4 right. by left.
Defined.


(** ** parse_svg_paths_basic: what it returns and what it raises *)

Lemma float_cases (tok : string) :
  returns_or_value_error (fun _ => True) (float tok).
Proof. unfold float. by destruct (parse_literal tok). Qed.

Lemma returns_bind {A B : Type} (Q : A -> Prop) (P : B -> Prop)
    (m : outcome A) (k : A -> outcome B) :
  returns_or_value_error Q m ->
  (forall a, Q a -> returns_or_value_error P (k a)) ->
  returns_or_value_error P (m ≫= k).
Proof. destruct m as [a| |]; simpl; [by auto | done | done]. Qed.

Lemma floats_cases (toks : list string) :
  returns_or_value_error (fun _ => True) (floats toks).
Proof.
  induction toks as [|t toks IH]; simpl; [done|].
  apply (returns_bind (fun _ => True)); [apply float_cases | intros x _].
  apply (returns_bind (fun _ => True)); [apply IH | done].
Qed.

(** Reads one [float] and goes on. *)
Ltac read_float :=
  apply (returns_bind (fun _ => True)); [apply float_cases | intros ? _].

(** An invariant of the parser state that the four commands keep holds when
    the loop ends; the loop ends with a result or with [ValueError]. *)
Lemma parse_loop_invariant (I : parser_state -> Prop)
    (P : list (list point) -> Prop) :
  (forall st, I st -> P (flush st)) ->
  (forall st x y, I st ->
     I {| polygons := flush st; current_poly := [(x, y)];
          current_pos := (x, y); start_pos := (x, y) |}) ->
  (forall st x y, I st ->
     I {| polygons := polygons st; current_poly := current_poly st ++ [(x, y)];
          current_pos := (x, y); start_pos := start_pos st |}) ->
  (forall st c1 c2 e, I st ->
     I {| polygons := polygons st;
          current_poly := current_poly st
                          ++ drop 1 (sample_cubic_bezier (current_pos st) c1 c2 e 20);
          current_pos := e; start_pos := start_pos st |}) ->
  (forall st, I st ->
     I {| polygons := polygons st; current_poly := current_poly st ++ [start_pos st];
          current_pos := start_pos st; start_pos := start_pos st |}) ->
  forall tokens st, I st -> returns_or_value_error P (parse_loop tokens st).
Proof.
  intros Hflush HM HL HC HZ tokens.
  assert (Hdrop : forall (args : list string) st, I st ->
            returns_or_value_error P (_ ← floats args; Ret (flush st))).
  { intros args st Hst.
    apply (returns_bind (fun _ => True)); [apply floats_cases | intros _ _].
    by apply Hflush. }
  remember (length tokens) as n eqn:Hn. revert tokens Hn.
  induction n as [n IH] using lt_wf_ind. intros tokens Hn st Hst.
  destruct tokens as [|cmd args]; [by apply Hflush|].
  cbn [parse_loop].
  destruct (String.eqb cmd "M").
  { destruct args as [|tx [|ty rest]]; [by apply Hdrop | by apply Hdrop |].
    do 2 read_float.
    apply (IH (length rest)); [subst n; simpl; lia | done | by apply HM]. }
  destruct (String.eqb cmd "L").
  { destruct args as [|tx [|ty rest]]; [by apply Hdrop | by apply Hdrop |].
    do 2 read_float.
    apply (IH (length rest)); [subst n; simpl; lia | done | by apply HL]. }
  destruct (String.eqb cmd "C").
  { destruct args as [|t1 [|t2 [|t3 [|t4 [|t5 [|t6 rest]]]]]];
      try by apply Hdrop.
    do 6 read_float.
    apply (IH (length rest)); [subst n; simpl; lia | done | by apply HC]. }
  destruct (String.eqb (upper cmd) "Z").
  { apply (IH (length args)); [subst n; simpl; lia | done | by apply HZ]. }
  apply (IH (length args)); [subst n; simpl; lia | done | done].
Qed.


(** X4: [parse_svg_paths_basic] either returns polygons, none of them empty,
    or raises [ValueError] (a [float] of a command letter); the exhausted
    iterator never escapes and nothing else is raised. *)
Theorem parse_returns_nonempty_polygons (d_str : string) :
  returns_or_value_error (Forall (fun poly : list point => poly <> []))
                         (parse_svg_paths_basic d_str).
Proof.
  unfold parse_svg_paths_basic.
  assert (Hflush : forall st,
            Forall (fun poly : list point => poly <> []) (polygons st) ->
            Forall (fun poly : list point => poly <> []) (flush st)).
  { intros st Hst. unfold flush. destruct (current_poly st) eqn:Hpoly; [done|].
    apply Forall_app. split; [done|]. by constructor. }
  apply (parse_loop_invariant
           (fun st => Forall (fun poly : list point => poly <> []) (polygons st)));
    first [ done | exact Hflush | (intros; by apply Hflush) | by constructor ].
Qed.

Lemma floats_cons_ret (t : string) (ts : list string) (xs : list R) :
  floats (t :: ts) = Ret xs ->
  exists x xs', float t = Ret x /\ floats ts = Ret xs'.
Proof.
  simpl. destruct (float t) as [x| |]; [|done|done].
  destruct (floats ts) as [xs'| |]; [|done|done]. intros _. eauto.
Qed.

Lemma arity_cases (cmd : string) :
  (0 < arity cmd)%nat ->
  (cmd = "M" /\ arity cmd = 2%nat) \/ (cmd = "L" /\ arity cmd = 2%nat)
  \/ (cmd = "C" /\ arity cmd = 6%nat).
Proof.
  unfold arity.
  destruct (String.eqb_spec cmd "M") as [-> | _]; [by left|].
  destruct (String.eqb_spec cmd "L") as [-> | _]; [by right; left|].
  destruct (String.eqb_spec cmd "C") as [-> | _]; [by right; right|].
  lia.
Qed.

(** X5: path data that stops in the middle of the arguments of [M], [L] or
    [C] raises nothing: the unfinished command is dropped and the polygons
    read so far are returned. *)
Theorem truncated_command_dropped (cmd : string) (args : list string)
    (xs : list R) (st : parser_state) :
  (length args < arity cmd)%nat ->
  floats args = Ret xs ->
  parse_loop (cmd :: args) st = Ret (flush st).
Proof.
  intros Hlen Hfloats.
  destruct (arity_cases cmd) as [[-> Har] | [[-> Har] | [-> Har]]];
    [lia | | |]; rewrite Har in Hlen; cbn [parse_loop String.eqb Ascii.eqb Bool.eqb].
  - destruct args as [|tx [|ty rest]]; [| |simpl in Hlen; lia]; by rewrite Hfloats.
  - destruct args as [|tx [|ty rest]]; [| |simpl in Hlen; lia]; by rewrite Hfloats.
  - destruct args as [|t1 [|t2 [|t3 [|t4 [|t5 [|t6 rest]]]]]];
      [| | | | | |simpl in Hlen; lia]; by rewrite Hfloats.
Qed.

Lemma truncated_command_dropped_witness :
  parse_loop ["L"; "10"] {| polygons := []; current_poly := [(0, 0)];
                            current_pos := (0, 0); start_pos := (0, 0) |}
  = Ret [[(0, 0)]].
Proof.
  apply (truncated_command_dropped "L" ["10"] [10]).
  - vm_compute. lia.
  - cbn [floats]. by rewrite float_10.
Defined.

(** Settles a chain of [float] reads that ends in [Raise ValueError]. *)
Ltac float_chain :=
  repeat match goal with
    | |- context [float ?t] =>
        let H := fresh in
        pose proof (float_cases t) as H;
        destruct (float t); simpl in H |- *; subst; try done
    end.

(** X6: a token that [float] turns down among the arguments of [M], [L] or
    [C] raises [ValueError] out of [parse_loop], whatever follows it: the
    polygons read so far are lost. *)
Theorem letter_as_argument_raises (cmd tok : string) (nums rest : list string)
    (st : parser_state) :
  (length nums < arity cmd)%nat ->
  float tok = Raise ValueError ->
  parse_loop (cmd :: nums ++ tok :: rest) st = Raise ValueError.
Proof.
  intros Hlen Htok.
  assert (Hshort : floats (nums ++ tok :: rest) = Raise ValueError).
  { clear Hlen. induction nums as [|t nums IH]; simpl.
    - by rewrite Htok.
    - rewrite IH. pose proof (float_cases t) as Ht.
      destruct (float t); simpl in *; by subst. }
  destruct (arity_cases cmd) as [[-> Har] | [[-> Har] | [-> Har]]];
    [lia | | |]; rewrite Har in Hlen;
    cbn [parse_loop String.eqb Ascii.eqb Bool.eqb].
  - revert Hshort.
    destruct (nums ++ tok :: rest) as [|a1 [|a2 more]] eqn:Hargs;
      try (by intros ->).
    intros _.
    destruct nums as [|t1 [|t2 nums]]; [| |simpl in Hlen; lia];
      simplify_list_eq; rewrite Htok; float_chain.
  - revert Hshort.
    destruct (nums ++ tok :: rest) as [|a1 [|a2 more]] eqn:Hargs;
      try (by intros ->).
    intros _.
    destruct nums as [|t1 [|t2 nums]]; [| |simpl in Hlen; lia];
      simplify_list_eq; rewrite Htok; float_chain.
  - revert Hshort.
    destruct (nums ++ tok :: rest)
      as [|a1 [|a2 [|a3 [|a4 [|a5 [|a6 more]]]]]] eqn:Hargs;
      try (by intros ->).
    intros _.
    destruct nums as [|t1 [|t2 [|t3 [|t4 [|t5 [|t6 nums]]]]]];
      [| | | | | |simpl in Hlen; lia];
      simplify_list_eq; rewrite Htok; float_chain.
Qed.

Lemma letter_as_argument_raises_witness :
  parse_loop ("M" :: ["0"] ++ "L" :: ["1"; "2"]) initial_state = Raise ValueError.
Proof.
  apply (letter_as_argument_raises "M" "L" ["0"] ["1"; "2"]).
  - vm_compute. lia.
  - apply (float_of_letter "L"). reflexivity.
Defined.


(** X7: a [C] command with six numeric arguments appends 19 points to the
    polygon in progress: the 20 samples of the curve from the current
    point, without the first one; the last point appended is the end point
    of the curve, which becomes the current point. *)
Theorem curve_appends_nineteen_points (t1 t2 t3 t4 t5 t6 : string)
    (c1x c1y c2x c2y ex ey : R) (rest : list string) (st : parser_state) :
  floats [t1; t2; t3; t4; t5; t6] = Ret [c1x; c1y; c2x; c2y; ex; ey] ->
  exists new,
    parse_loop ("C" :: t1 :: t2 :: t3 :: t4 :: t5 :: t6 :: rest) st
    = parse_loop rest
        {| polygons := polygons st; current_poly := current_poly st ++ new;
           current_pos := (ex, ey); start_pos := start_pos st |}
    /\ length new = 19%nat
    /\ last new = Some (ex, ey)
    /\ current_pos st :: new
       = sample_cubic_bezier (current_pos st) (c1x, c1y) (c2x, c2y) (ex, ey) 20.
Proof.
  intros Hfloats.
  assert (Hread : float t1 = Ret c1x /\ float t2 = Ret c1y /\ float t3 = Ret c2x
                  /\ float t4 = Ret c2y /\ float t5 = Ret ex /\ float t6 = Ret ey).
  { revert Hfloats. cbn [floats].
    pose proof (float_cases t1). pose proof (float_cases t2).
    pose proof (float_cases t3). pose proof (float_cases t4).
    pose proof (float_cases t5). pose proof (float_cases t6).
    destruct (float t1), (float t2), (float t3), (float t4), (float t5),
      (float t6); simpl in *; try done.
    by intros [= -> -> -> -> -> ->]. }
  destruct Hread as (H1 & H2 & H3 & H4 & H5 & H6).
  destruct (bezier_shape (current_pos st) (c1x, c1y) (c2x, c2y) (ex, ey) 20)
    as (Hlen & Hhead & Hlast); [lia|].
  apply head_Some in Hhead as [new Hnew].
  exists new. split_and!.
  - cbn [parse_loop String.eqb Ascii.eqb Bool.eqb].
    rewrite H1, H2, H3, H4, H5, H6. unfold mbind, outcome_bind.
    by rewrite Hnew.
  - rewrite Hnew in Hlen. simpl in Hlen. lia.
  - rewrite Hnew in Hlen, Hlast. destruct new; [simpl in Hlen; lia|].
    by rewrite last_cons_cons in Hlast.
  - done.
Qed.

Lemma curve_appends_nineteen_points_witness :
  exists new,
    parse_loop ["C"; "0"; "10"; "10"; "10"; "10"; "0"] initial_state
    = parse_loop []
        {| polygons := []; current_poly := [] ++ new;
           current_pos := (10, 0); start_pos := (0, 0) |}
    /\ length new = 19%nat
    /\ last new = Some (10, 0)
    /\ (0, 0) :: new = sample_cubic_bezier (0, 0) (0, 10) (10, 10) (10, 0) 20.
Proof.
  apply (curve_appends_nineteen_points "0" "10" "10" "10" "10" "0"
           0 10 10 10 10 0 [] initial_state).
  cbn [floats]. by rewrite !float_0, !float_10.
Defined.


(** ** The bounding box and the loop of extract_paths_from_file *)

Lemma fold_Rmax_spec (l : list R) (x : R) :
  x <= fold_left Rmax l x /\ Forall (fun y => y <= fold_left Rmax l x) l.
Proof.
  revert x. induction l as [|y l IH]; intros x; simpl.
  - split; [lra | constructor].
  - destruct (IH (Rmax x y)) as [Hacc Hall].
    pose proof (Rmax_l x y). pose proof (Rmax_r x y).
    split; [lra|]. constructor; [lra | done].
Qed.

Lemma fold_Rmin_spec (l : list R) (x : R) :
  fold_left Rmin l x <= x /\ Forall (fun y => fold_left Rmin l x <= y) l.
Proof.
  revert x. induction l as [|y l IH]; intros x; simpl.
  - split; [lra | constructor].
  - destruct (IH (Rmin x y)) as [Hacc Hall].
    pose proof (Rmin_l x y). pose proof (Rmin_r x y).
    split; [lra|]. constructor; [lra | done].
Qed.

Lemma list_max_spec (l : list R) (m : R) :
  list_max l = Ret m -> Forall (fun y => y <= m) l.
Proof.
  destruct l as [|x l]; [done|]. intros [= <-].
  destruct (fold_Rmax_spec l x). by constructor.
Qed.

Lemma list_min_spec (l : list R) (m : R) :
  list_min l = Ret m -> Forall (fun y => m <= y) l.
Proof.
  destruct l as [|x l]; [done|]. intros [= <-].
  destruct (fold_Rmin_spec l x). by constructor.
Qed.

Lemma bounding_box_of_ret (coords : list R) (bb : bounding_box) :
  bounding_box_of coords = Ret bb ->
  exists max_x min_x max_y min_y,
    list_max (stride2 coords) = Ret max_x
    /\ list_min (stride2 coords) = Ret min_x
    /\ list_max (stride2 (drop 1 coords)) = Ret max_y
    /\ list_min (stride2 (drop 1 coords)) = Ret min_y
    /\ bb = {| bb_w := max_x - min_x; bb_h := max_y - min_y;
               bb_cx := (max_x + min_x) / 2; bb_cy := (max_y + min_y) / 2 |}.
Proof.
  unfold bounding_box_of.
  destruct (list_max (stride2 coords)) as [max_x| |]; [|done|done].
  destruct (list_min (stride2 coords)) as [min_x| |]; [|done|done].
  destruct (list_max (stride2 (drop 1 coords))) as [max_y| |]; [|done|done].
  destruct (list_min (stride2 (drop 1 coords))) as [min_y| |]; [|done|done].
  intros [= <-]. by exists max_x, min_x, max_y, min_y.
Qed.

Lemma fold_Rmax_elem (l : list R) (x : R) : fold_left Rmax l x ∈ x :: l.
Proof.
  revert x. induction l as [|y l IH]; intros x; simpl; [by left|].
  specialize (IH (Rmax x y)). apply elem_of_cons in IH as [-> | Hin].
  - unfold Rmax. destruct (Rle_dec x y); [right; by left | by left].
  - right. by right.
Qed.

Lemma fold_Rmin_elem (l : list R) (x : R) : fold_left Rmin l x ∈ x :: l.
Proof.
  revert x. induction l as [|y l IH]; intros x; simpl; [by left|].
  specialize (IH (Rmin x y)). apply elem_of_cons in IH as [-> | Hin].
  - unfold Rmin. destruct (Rle_dec x y); [by left | right; by left].
  - right. by right.
Qed.

Lemma list_max_elem (l : list R) (m : R) : list_max l = Ret m -> m ∈ l.
Proof. destruct l as [|x l]; [done|]. intros [= <-]. apply fold_Rmax_elem. Qed.

Lemma list_min_elem (l : list R) (m : R) : list_min l = Ret m -> m ∈ l.
Proof. destruct l as [|x l]; [done|]. intros [= <-]. apply fold_Rmin_elem. Qed.

(** The spread [max - min] of a list is never negative, and it is 0 exactly
    when all the numbers of the list are the same. *)
Lemma spread_spec (l : list R) (hi lo : R) :
  list_max l = Ret hi -> list_min l = Ret lo ->
  0 <= hi - lo
  /\ (hi - lo = 0 <-> forall x x', x ∈ l -> x' ∈ l -> x = x').
Proof.
  intros Hhi Hlo.
  pose proof (list_max_spec l hi Hhi) as Hmax.
  pose proof (list_min_spec l lo Hlo) as Hmin.
  apply list_max_elem in Hhi. apply list_min_elem in Hlo.
  rewrite Forall_forall in Hmax, Hmin.
  split.
  - specialize (Hmax lo Hlo). lra.
  - split.
    + intros Hzero x x' Hx Hx'.
      pose proof (Hmax x Hx). pose proof (Hmin x Hx).
      pose proof (Hmax x' Hx'). pose proof (Hmin x' Hx'). lra.
    + intros Hsame. rewrite (Hsame hi lo Hhi Hlo). lra.
Qed.

Lemma bounding_box_bounds (coords : list R) (bb : bounding_box) :
  bounding_box_of coords = Ret bb ->
  0 <= bb_w bb /\ 0 <= bb_h bb
  /\ (bb_w bb = 0
      <-> forall x x', x ∈ stride2 coords -> x' ∈ stride2 coords -> x = x')
  /\ (bb_h bb = 0
      <-> forall y y', y ∈ stride2 (drop 1 coords) ->
            y' ∈ stride2 (drop 1 coords) -> y = y').
Proof.
  intros Hbb.
  apply bounding_box_of_ret in Hbb
    as (max_x & min_x & max_y & min_y & Hmx & Hnx & Hmy & Hny & ->).
  destruct (spread_spec _ _ _ Hmx Hnx) as [Hw Hw0].
  destruct (spread_spec _ _ _ Hmy Hny) as [Hh Hh0].
  simpl. done.
Qed.

(** X8: for a path that holds at least one number (a path without numbers
    is skipped before), the bounding box is computed exactly when the path
    holds at least two numbers, and with one number [max] of the empty list
    of y values raises [ValueError].  The width and the height of a box are
    never negative; the width is 0 exactly when all x (even positions) are
    the same number, and the height is 0 exactly when all y (odd positions)
    are. *)
Theorem bounding_box_extent (coords : list R) :
  coords <> [] ->
  ((2 <= length coords)%nat <-> exists bb, bounding_box_of coords = Ret bb)
  /\ ((length coords < 2)%nat -> bounding_box_of coords = Raise ValueError)
  /\ forall bb, bounding_box_of coords = Ret bb ->
       0 <= bb_w bb /\ 0 <= bb_h bb
       /\ (bb_w bb = 0
           <-> forall x x', x ∈ stride2 coords -> x' ∈ stride2 coords -> x = x')
       /\ (bb_h bb = 0
           <-> forall y y', y ∈ stride2 (drop 1 coords) ->
                 y' ∈ stride2 (drop 1 coords) -> y = y').
Proof.
  intros Hne. split_and!; [| |apply bounding_box_bounds].
  - destruct coords as [|x [|y coords]]; simpl.
    + done.
    + split; [lia | by intros [bb ?]].
    + split; [|lia]. intros _. unfold bounding_box_of. simpl.
      destruct coords as [|x' [|y' coords]]; simpl; eauto.
  - destruct coords as [|x [|y coords]]; simpl; [done | done | lia].
Qed.

Lemma bounding_box_extent_witness :
  exists bb, bounding_box_of [0; 0; 20; 22] = Ret bb.
Proof.
  destruct (bounding_box_extent [0; 0; 20; 22]) as ([Hret _] & _).
  - discriminate.
  - apply Hret. simpl. lia.
Defined.

(** A path whose data holds exactly one number makes the extraction
    raise [ValueError] ([max] of the empty list of y values), whatever its
    fill. *)
Theorem single_number_path_raises (fill d : string) (c : R) :
  path_coords d = [c] -> classify_path fill d = Raise ValueError.
Proof. intros Hcoords. unfold classify_path. by rewrite Hcoords. Qed.

Lemma path_coords_single : path_coords "M5" = [5].
Proof. eval_path_coords. done. Qed.

Lemma single_number_path_raises_witness :
  classify_path "#000000" "M5" = Raise ValueError.
Proof. apply (single_number_path_raises "#000000" "M5" 5), path_coords_single. Defined.




(** One round of the loop of [extract_paths_from_file]. *)
Lemma extract_snoc (paths : list (string * string)) (fill d : string) :
  extract_paths_from_file (paths ++ [(fill, d)])
  = ('(dots, arrows) ← extract_paths_from_file paths;
     class ← classify_path fill d;
     match class with
     | Skipped => Ret (dots, arrows)
     | Dot cx cy r => Ret (dots ++ [(cx, cy, r)], arrows)
     | ArrowFragment parsed_polys => Ret (dots, arrows ++ parsed_polys)
     end).
Proof. unfold extract_paths_from_file. by rewrite fold_left_app. Qed.

Lemma extract_concat (paths1 paths2 : list (string * string)) :
  extract_paths_from_file (paths1 ++ paths2)
  = ('(dots1, arrows1) ← extract_paths_from_file paths1;
     '(dots2, arrows2) ← extract_paths_from_file paths2;
     Ret (dots1 ++ dots2, arrows1 ++ arrows2)).
Proof.
  induction paths2 as [|[fill d] paths2 IH] using rev_ind.
  - rewrite app_nil_r.
    destruct (extract_paths_from_file paths1) as [[dots1 arrows1]| |]; simpl;
      [|done|done].
    by rewrite !app_nil_r.
  - rewrite app_assoc, !extract_snoc, IH.
    destruct (extract_paths_from_file paths1) as [[dots1 arrows1]| |]; simpl;
      [|done|done].
    destruct (extract_paths_from_file paths2) as [[dots2 arrows2]| |]; simpl;
      [|done|done].
    destruct (classify_path fill d) as [[|cx cy r|polys]| |]; simpl;
      by rewrite ?app_assoc.
Qed.

(** X10: the extraction works path by path and keeps the order of the
    file: the dots and arrow polygons of a list of paths are those of its
    first part followed by those of the rest, and an error in either part is
    the error of the whole. *)
Theorem extract_paths_appends (paths1 paths2 : list (string * string)) :
  extract_paths_from_file (paths1 ++ paths2)
  = ('(dots1, arrows1) ← extract_paths_from_file paths1;
     '(dots2, arrows2) ← extract_paths_from_file paths2;
     Ret (dots1 ++ dots2, arrows1 ++ arrows2)).
Proof. apply extract_concat. Qed.

(** X11: one path with a single number in its data aborts the whole
    extraction with [ValueError], whatever the paths before it gave and
    whatever follows. *)
Theorem extract_aborts_on_single_number (before after : list (string * string))
    (fill d : string) (c : R) (dots : list (R * R * R)) (arrows : list (list point)) :
  extract_paths_from_file before = Ret (dots, arrows) ->
  path_coords d = [c] ->
  extract_paths_from_file (before ++ (fill, d) :: after) = Raise ValueError.
Proof.
  intros Hbefore Hcoords.
  rewrite extract_concat, Hbefore. simpl.
  change ((fill, d) :: after) with ([(fill, d)] ++ after).
  rewrite extract_concat.
  change [(fill, d)] with ([] ++ [(fill, d)]). rewrite extract_snoc. simpl.
  unfold classify_path. by rewrite Hcoords.
Qed.

Lemma extract_aborts_on_single_number_witness :
  extract_paths_from_file ([] ++ ("#000000", "M5") :: [("#000000", "M0,0 L20,22")])
  = Raise ValueError.
Proof.
  apply (extract_aborts_on_single_number [] _ "#000000" "M5" 5 [] []).
  - done.
  - apply path_coords_single.
Defined.


(** ** ramer_douglas_peucker: short inputs, collapse, negative tolerance *)

Lemma rdp_scan_single (p : point) : rdp_scan [p] = (0%nat, 0).
Proof. done. Qed.

Lemma rdp_scan_empty : rdp_scan [] = (0%nat, 0).
Proof. done. Qed.

(** X15: with a tolerance that is not negative, a single point comes back
    twice, and the empty list raises [IndexError]. *)
Theorem rdp_short_inputs (fuel : nat) (p : point) (epsilon : R) :
  0 <= epsilon ->
  ramer_douglas_peucker (S fuel) [p] epsilon = Ret [p; p]
  /\ ramer_douglas_peucker (S fuel) [] epsilon = Raise IndexError.
Proof.
  intros Heps. split.
  - by rewrite (rdp_base fuel [p] epsilon 0%nat 0 p []) by (done || lra).
  - cbn [ramer_douglas_peucker]. rewrite rdp_scan_empty.
    by rewrite decide_False by lra.
Qed.

Lemma rdp_short_inputs_witness :
  ramer_douglas_peucker 1 [(3, 4)] 2 = Ret [(3, 4); (3, 4)]
  /\ ramer_douglas_peucker 1 [] 2 = Raise IndexError.
Proof. apply (rdp_short_inputs 0 (3, 4) 2). lra. Defined.

(** Whatever a run on a non-empty list returns has at least two points. *)
Lemma rdp_result_length (epsilon : R) :
  0 <= epsilon ->
  forall fuel points out,
    points <> [] -> ramer_douglas_peucker fuel points epsilon = Ret out ->
    (2 <= length out)%nat.
Proof.
  intros Heps. induction fuel as [|fuel IH]; intros points out Hne Hrun; [done|].
  destruct points as [|p0 tl]; [done|].
  destruct tl as [|q tl _] using rev_ind.
  - rewrite (rdp_base fuel [p0] epsilon 0%nat 0 p0 []) in Hrun by (done || lra).
    by injection Hrun as <-.
  - set (g := fun m => perpendicular_distance m p0 q).
    destruct (scan_from_spec g tl 1 (0%nat, 0))
      as [[Hscan _] | (A & s & B & -> & Hscan & _)].
    + rewrite (rdp_base fuel _ epsilon 0%nat 0 p0 (tl ++ [q])) in Hrun;
        [|by rewrite rdp_scan_mid|simpl; lra|done].
      by injection Hrun as <-.
    + destruct (decide (epsilon < g s)) as [Hsplit | Hkeep].
      * rewrite (rdp_split fuel _ epsilon (1 + length A) (g s)) in Hrun;
          [|by rewrite rdp_scan_mid|done].
        rewrite <- app_assoc in Hrun. simpl app in Hrun.
        rewrite take_split, (drop_split p0 s q A B) in Hrun.
        destruct (ramer_douglas_peucker fuel (p0 :: A ++ [s]) epsilon)
          as [r1| |] eqn:H1; [|done|done].
        destruct (ramer_douglas_peucker fuel (s :: B ++ [q]) epsilon)
          as [r2| |] eqn:H2; [|done|done].
        injection Hrun as <-.
        apply IH in H2; [|done]. rewrite length_app. lia.
      * rewrite (rdp_base fuel _ epsilon (1 + length A)%nat (g s) p0
                   ((A ++ s :: B) ++ [q])) in Hrun;
          [|by rewrite rdp_scan_mid|done|done].
        by injection Hrun as <-.
Qed.

(** X16: with a tolerance that is not negative, the run collapses the
    polyline to its two ends exactly when every interior point is within
    the tolerance of the chord between them. *)
Theorem rdp_collapses_iff (fuel : nat) (p0 pe : point) (mid : list point)
    (epsilon : R) :
  0 <= epsilon ->
  ramer_douglas_peucker (S fuel) (p0 :: mid ++ [pe]) epsilon = Ret [p0; pe]
  <-> Forall (fun m => perpendicular_distance m p0 pe <= epsilon) mid.
Proof.
  intros Heps. set (g := fun m => perpendicular_distance m p0 pe).
  destruct (scan_from_spec g mid 1 (0%nat, 0))
    as [[Hscan Hall] | (A & s & B & -> & Hscan & Hpos & HA & HB)].
  - split.
    + intros _. eapply Forall_impl; [exact Hall|]. simpl. intros m Hm.
      fold (g m). lra.
    + intros _.
      rewrite (rdp_base fuel _ epsilon 0%nat 0 p0 (mid ++ [pe]));
        [|by rewrite rdp_scan_mid|simpl; lra|done].
      by rewrite nth_end.
  - destruct (decide (epsilon < g s)) as [Hsplit | Hkeep].
    + split.
      * intros Hrun. exfalso.
        rewrite (rdp_split fuel _ epsilon (1 + length A) (g s)) in Hrun;
          [|by rewrite rdp_scan_mid|done].
        rewrite <- app_assoc in Hrun. simpl app in Hrun.
        rewrite take_split, (drop_split p0 s pe A B) in Hrun.
        destruct (ramer_douglas_peucker fuel (p0 :: A ++ [s]) epsilon)
          as [r1| |] eqn:H1; [|done|done].
        destruct (ramer_douglas_peucker fuel (s :: B ++ [pe]) epsilon)
          as [r2| |] eqn:H2; [|done|done].
        apply (rdp_result_length epsilon Heps) in H1; [|done].
        apply (rdp_result_length epsilon Heps) in H2; [|done].
        simpl in Hrun. injection Hrun as Hrun.
        apply (f_equal length) in Hrun. rewrite length_app in Hrun.
        assert (Hr1 : (1 <= length (removelast r1))%nat).
        { destruct r1 as [|a [|b r1]]; simpl in *; lia. }
        simpl in Hrun. lia.
      * intros Hall. apply Forall_app in Hall as [_ Hall].
        apply Forall_cons in Hall as [Hs _]. fold (g s) in Hs. lra.
    + split.
      * intros _. apply Forall_app. split; [|constructor].
        -- eapply Forall_impl; [exact HA|]. simpl. intros m Hm. fold (g m). lra.
        -- fold (g s). lra.
        -- eapply Forall_impl; [exact HB|]. simpl. intros m Hm. fold (g m). lra.
      * intros _.
        rewrite (rdp_base fuel _ epsilon (1 + length A)%nat (g s) p0
                   ((A ++ s :: B) ++ [pe]));
          [|by rewrite rdp_scan_mid|done|done].
        by rewrite nth_end.
Qed.

Lemma rdp_collapses_iff_witness :
  ramer_douglas_peucker 1 ((0, 0) :: [(1, 0.5)] ++ [(2, 0)]) 1
  = Ret [(0, 0); (2, 0)]
  <-> Forall (fun m => perpendicular_distance m (0, 0) (2, 0) <= 1) [(1, 0.5)].
Proof. apply (rdp_collapses_iff 0 (0, 0) (2, 0) [(1, 0.5)] 1). lra. Defined.

(** X17: with a negative tolerance no call returns, on any input and with
    any fuel: each call recurses on a prefix of its input. *)
Theorem rdp_negative_never_returns (fuel : nat) (points out : list point)
    (epsilon : R) :
  epsilon < 0 -> ramer_douglas_peucker fuel points epsilon <> Ret out.
Proof. intros Heps. by rewrite rdp_negative_tolerance. Qed.

Lemma rdp_negative_never_returns_witness :
  ramer_douglas_peucker 5 [(0, 0); (1, 1); (2, 0)] (-1) <> Ret [(0, 0); (2, 0)].
Proof. apply (rdp_negative_never_returns 5 _ _ (-1)). lra. Defined.


(** ** The dedup pre-pass and simplify_points, further *)

Lemma adjacent_snoc (rel : point -> point -> Prop) (l : list point) (p : point) :
  adjacent rel (l ++ [p])
  <-> adjacent rel l /\ (l = [] \/ rel (List.last l origin) p).
Proof.
  induction l as [|a [|b l] IH].
  - simpl. split; [by auto | done].
  - simpl. split; [intros [? _]; by auto | intros [_ [? | ?]]; by auto].
  - change ((a :: b :: l) ++ [p]) with (a :: (b :: l) ++ [p]).
    change (adjacent rel (a :: (b :: l) ++ [p]))
      with (rel a b /\ adjacent rel ((b :: l) ++ [p])).
    change (adjacent rel (a :: b :: l)) with (rel a b /\ adjacent rel (b :: l)).
    rewrite IH.
    change (List.last (a :: b :: l) origin) with (List.last (b :: l) origin).
    split.
    + intros (? & ? & [? | ?]); [done|]. split_and!; by auto.
    + intros ((? & ?) & [? | ?]); [done|]. split_and!; by auto.
Qed.

Lemma adjacent_app_cons (rel : point -> point -> Prop) (acc l : list point)
    (p : point) :
  acc <> [] -> adjacent rel (acc ++ p :: l) ->
  rel (List.last acc origin) p /\ adjacent rel (acc ++ [p]).
Proof.
  induction acc as [|a [|b acc] IH]; intros Hne Hadj; [done| |].
  - simpl in *. destruct Hadj. by auto.
  - change (adjacent rel ((a :: b :: acc) ++ p :: l))
      with (rel a b /\ adjacent rel ((b :: acc) ++ p :: l)) in Hadj.
    destruct Hadj as [Hab Hadj]. destruct (IH ltac:(done) Hadj) as [Hlast Hsnoc].
    change (List.last (a :: b :: acc) origin) with (List.last (b :: acc) origin).
    split; [done|].
    change (adjacent rel ((a :: b :: acc) ++ [p]))
      with (rel a b /\ adjacent rel ((b :: acc) ++ [p])).
    done.
Qed.

Lemma dedup_step_far (dedup : list point) (p : point) :
  far_apart (List.last dedup origin) p -> dedup_step dedup p = dedup ++ [p].
Proof. intros Hfar. unfold dedup_step. by rewrite decide_True. Qed.

Lemma dedup_fold_adjacent (rest acc : list point) :
  adjacent far_apart acc -> adjacent far_apart (fold_left dedup_step rest acc).
Proof.
  revert acc. induction rest as [|p rest IH]; intros acc Hacc; [done|].
  simpl. apply IH. unfold dedup_step. case_decide; [|done].
  apply adjacent_snoc. split; [done|]. by right.
Qed.

Lemma dedup_fold_fixed (l acc : list point) :
  acc <> [] -> adjacent far_apart (acc ++ l) ->
  fold_left dedup_step l acc = acc ++ l.
Proof.
  revert acc. induction l as [|p l IH]; intros acc Hne Hadj.
  - by rewrite app_nil_r.
  - destruct (adjacent_app_cons far_apart acc l p Hne Hadj) as [Hfar _].
    simpl. rewrite dedup_step_far by done.
    rewrite (IH (acc ++ [p])).
    + by rewrite <- app_assoc.
    + by destruct acc.
    + by rewrite <- app_assoc.
Qed.

Lemma dedup_points_adjacent (points out : list point) :
  dedup_points points = Ret out -> adjacent far_apart out.
Proof.
  destruct points as [|p0 rest]; [done|].
  rewrite dedup_closing_test_idle. intros [= <-].
  by apply dedup_fold_adjacent.
Qed.

(** X18: in what the dedup pre-pass returns, every point is more than 0.5
    units from the point before it. *)
Theorem dedup_output_spaced (points out : list point) :
  dedup_points points = Ret out -> adjacent far_apart out.
Proof. apply dedup_points_adjacent. Qed.

Lemma dedup_example :
  dedup_points [(0, 0); (0.3, 0); (10, 0); (10.3, 0)] = Ret [(0, 0); (10, 0)].
Proof.
  unfold dedup_points. simpl. unfold dedup_step. simpl.
  repeat (eval_hypot_test; simpl). done.
Qed.

Lemma dedup_output_spaced_witness : adjacent far_apart [(0, 0); (10, 0)].
Proof.
  apply (dedup_output_spaced [(0, 0); (0.3, 0); (10, 0); (10.3, 0)]).
  apply dedup_example.
Defined.

(** X19: the dedup pre-pass is idempotent: run on its own result it
    returns that result. *)
Theorem dedup_idempotent (points out : list point) :
  dedup_points points = Ret out -> dedup_points out = Ret out.
Proof.
  intros Hrun. apply dedup_points_adjacent in Hrun as Hadj.
  destruct points as [|p0 rest]; [done|].
  rewrite dedup_closing_test_idle in Hrun. injection Hrun as Hrun.
  destruct (dedup_fold rest [p0]) as (ext & Hfold & _).
  rewrite Hfold in Hrun. subst out.
  change ([p0] ++ ext) with (p0 :: ext) in *.
  rewrite dedup_closing_test_idle. f_equal.
  by apply (dedup_fold_fixed ext [p0]).
Qed.

Lemma dedup_idempotent_witness :
  dedup_points [(0, 0); (10, 0)] = Ret [(0, 0); (10, 0)].
Proof.
  apply (dedup_idempotent [(0, 0); (0.3, 0); (10, 0); (10.3, 0)]).
  apply dedup_example.
Defined.

(** X20: on a non-empty list and with a tolerance that is not negative,
    [simplify_points] returns; its result has at least two points, starts
    with the first point of the input and holds only points of the input.
    On the empty list it raises [IndexError]. *)
Theorem simplify_points_returns (points : list point) (tolerance : R) :
  points <> [] -> 0 <= tolerance ->
  (exists out,
     (forall fuel, (length points <= fuel)%nat ->
        simplify_points fuel points tolerance = Ret out)
     /\ (2 <= length out)%nat
     /\ head out = head points
     /\ forall p, p ∈ out -> p ∈ points)
  /\ forall fuel, simplify_points fuel [] tolerance = Raise IndexError.
Proof.
  intros Hne Htol. split; [|done].
  destruct points as [|p0 rest]; [done|].
  unfold simplify_points. rewrite dedup_closing_test_idle.
  destruct (dedup_fold rest [p0]) as (ext & -> & Hsub & _).
  assert (Hlen : (length ext <= length rest)%nat) by (by apply sublist_length).
  destruct ext as [|q ext _] using rev_ind.
  - exists [p0; p0]. split_and!.
    + intros fuel Hfuel. destruct fuel as [|fuel]; [simpl in Hfuel; lia|].
      change (ramer_douglas_peucker (S fuel) [p0] tolerance = Ret [p0; p0]).
      by rewrite (rdp_base fuel [p0] tolerance 0%nat 0 p0 [])
        by (done || lra).
    + simpl. lia.
    + done.
    + intros p. rewrite !elem_of_cons, elem_of_nil.
      intros [-> | [-> | []]]; by left.
  - rewrite length_app in Hlen. simpl in Hlen.
    destruct (rdp_spec tolerance Htol (length ext) p0 ext q (le_n _))
      as (mid' & segs & Hrun & Hsub' & _).
    exists (p0 :: mid' ++ [q]). split_and!.
    + intros fuel Hfuel.
      change (ramer_douglas_peucker fuel (p0 :: ext ++ [q]) tolerance
              = Ret (p0 :: mid' ++ [q])).
      apply (rdp_fuel_mono _ _ _ _ Hrun). simpl in Hfuel. lia.
    + simpl. rewrite length_app. simpl. lia.
    + done.
    + intros p Hp.
      assert (Hin : p ∈ p0 :: ext ++ [q]).
      { eapply elem_of_sublist; [exact Hp|].
        apply sublist_skip, sublist_app; done. }
      eapply elem_of_sublist; [exact Hin|]. by apply sublist_skip.
Qed.

Lemma simplify_points_returns_witness :
  (exists out,
     (forall fuel, (length [(0, 0); (1, 3); (2, 0)] <= fuel)%nat ->
        simplify_points fuel [(0, 0); (1, 3); (2, 0)] 2 = Ret out)
     /\ (2 <= length out)%nat
     /\ head out = head [(0, 0); (1, 3); (2, 0)]
     /\ forall p, p ∈ out -> p ∈ [(0, 0); (1, 3); (2, 0)])
  /\ forall fuel, simplify_points fuel [] 2 = Raise IndexError.
Proof.
  apply (simplify_points_returns [(0, 0); (1, 3); (2, 0)] 2).
  - discriminate.
  - lra.
Defined.


(** ** symmetrize_arrow: the unique points, the tip, the rotation *)

Lemma last_default_irrelevant {A : Type} (l : list A) (d d' : A) :
  l <> [] -> List.last l d = List.last l d'.
Proof.
  induction l as [|a [|b l] IH]; intros Hne; [done | done |].
  change (List.last (b :: l) d = List.last (b :: l) d'). by apply IH.
Qed.

Definition differ (p q : point) : Prop := p <> q.

Lemma unique_fold (p0 : point) (rest acc : list point) :
  acc <> [] -> adjacent differ acc ->
  exists ext,
    fold_left (fun unique_points p =>
                 if decide (p = List.last unique_points p0)
                 then unique_points else unique_points ++ [p])
              rest acc = acc ++ ext
    /\ sublist ext rest
    /\ adjacent differ (acc ++ ext).
Proof.
  revert acc. induction rest as [|p rest IH]; intros acc Hne Hadj.
  - exists []. by rewrite app_nil_r.
  - simpl. case_decide as Heq.
    + destruct (IH acc Hne Hadj) as (ext & Hfold & Hsub & Hadj').
      exists ext. split_and!; [done | by apply sublist_cons | done].
    + destruct (IH (acc ++ [p])) as (ext & Hfold & Hsub & Hadj').
      * by destruct acc.
      * apply adjacent_snoc. split; [done|]. right. unfold differ.
        rewrite (last_default_irrelevant acc origin p0) by done. congruence.
      * exists (p :: ext). rewrite Hfold, <- app_assoc.
        split_and!; [done | by apply sublist_skip |].
        by rewrite <- app_assoc in Hadj'.
Qed.

Lemma unique_fold_fixed (p0 : point) (l acc : list point) :
  acc <> [] -> adjacent differ (acc ++ l) ->
  fold_left (fun unique_points p =>
               if decide (p = List.last unique_points p0)
               then unique_points else unique_points ++ [p])
            l acc = acc ++ l.
Proof.
  revert acc. induction l as [|p l IH]; intros acc Hne Hadj.
  - by rewrite app_nil_r.
  - destruct (adjacent_app_cons differ acc l p Hne Hadj) as [Hdiff _].
    simpl. rewrite decide_False.
    + rewrite (IH (acc ++ [p])); rewrite <- ?app_assoc; [done | | done].
      by destruct acc.
    + rewrite (last_default_irrelevant acc p0 origin) by done.
      unfold differ in Hdiff. congruence.
Qed.

(** X21: [unique_points] is drawn from the input in order, starts as the
    input starts, holds no two equal neighbours, and collapsing it once more
    changes nothing. *)
Theorem unique_points_no_repeat (points : list point) :
  sublist (unique_points_of points) points
  /\ head (unique_points_of points) = head points
  /\ adjacent differ (unique_points_of points)
  /\ unique_points_of (unique_points_of points) = unique_points_of points.
Proof.
  destruct points as [|p0 rest]; [done|].
  destruct (unique_fold p0 rest [p0]) as (ext & Hfold & Hsub & Hadj); [done..|].
  assert (Hu : unique_points_of (p0 :: rest) = p0 :: ext) by exact Hfold.
  rewrite !Hu.
  split_and!; [by apply sublist_skip | done | done |].
  unfold unique_points_of. by apply (unique_fold_fixed p0 ext [p0]).
Qed.

Lemma argmax_fold (l : list point) (n : nat) :
  let best := fold_left (fun best i =>
                 if decide ((nth best l origin).1 < (nth i l origin).1)
                 then i else best) (seq 1 n) 0%nat in
  (best <= n)%nat
  /\ (forall j, (j <= n)%nat -> (nth j l origin).1 <= (nth best l origin).1)
  /\ (forall j, (j < best)%nat -> (nth j l origin).1 < (nth best l origin).1).
Proof.
  induction n as [|n IH].
  - simpl. split_and!; [done | | intros j Hj; lia].
    intros j Hj. replace j with 0%nat by lia. lra.
  - cbv zeta in *. rewrite seq_S, fold_left_app. cbn [fold_left Nat.add].
    destruct IH as (Hle & Hmax & Hfirst).
    set (best := fold_left _ (seq 1 n) 0%nat) in *.
    case_decide as Hlt.
    + split_and!; [done | |].
      * intros j Hj. destruct (decide (j = S n)) as [-> | Hne]; [lra|].
        specialize (Hmax j ltac:(lia)). lra.
      * intros j Hj. specialize (Hmax j ltac:(lia)). lra.
    + split_and!; [lia | | done].
      intros j Hj. destruct (decide (j = S n)) as [-> | Hne]; [lra|].
      apply Hmax. lia.
Qed.

Lemma argmax_x_spec (l : list point) :
  l <> [] ->
  (argmax_x l < length l)%nat
  /\ (forall p, p ∈ l -> p.1 <= (tip_of l).1)
  /\ (forall j, (j < argmax_x l)%nat -> (nth j l origin).1 < (tip_of l).1).
Proof.
  intros Hne. unfold tip_of, argmax_x.
  destruct (argmax_fold l (length l - 1)) as (Hle & Hmax & Hfirst).
  assert (Hlen : (0 < length l)%nat) by (destruct l; [done | simpl; lia]).
  split_and!; [lia | | done].
  intros p Hp. apply list_elem_of_lookup in Hp as [j Hj].
  assert (Hjlt : (j < length l)%nat) by (by eapply lookup_lt_Some).
  specialize (Hmax j ltac:(lia)).
  rewrite (nth_lookup_Some _ _ origin _ Hj) in Hmax. done.
Qed.

(** X22: the tip is a point of the list, no point of the list lies to the
    right of it, and every point before it lies strictly to the left: it is
    the first of the rightmost points. *)
Theorem tip_is_first_rightmost (unique_points : list point) :
  unique_points <> [] ->
  unique_points !! argmax_x unique_points = Some (tip_of unique_points)
  /\ (forall p, p ∈ unique_points -> p.1 <= (tip_of unique_points).1)
  /\ (forall j p, (j < argmax_x unique_points)%nat ->
        unique_points !! j = Some p -> p.1 < (tip_of unique_points).1).
Proof.
  intros Hne. destruct (argmax_x_spec unique_points Hne) as (Hlt & Hmax & Hfirst).
  split_and!; [|done|].
  - unfold tip_of.
    destruct (lookup_lt_is_Some_2 unique_points (argmax_x unique_points) Hlt)
      as [p Hp].
    by rewrite (nth_lookup_Some _ _ origin _ Hp).
  - intros j p Hj Hp. specialize (Hfirst j Hj).
    by rewrite (nth_lookup_Some _ _ origin _ Hp) in Hfirst.
Qed.

Lemma tip_is_first_rightmost_witness :
  [(1, 5); (4, 0); (4, 7); (2, 2)] !! argmax_x [(1, 5); (4, 0); (4, 7); (2, 2)]
  = Some (tip_of [(1, 5); (4, 0); (4, 7); (2, 2)])
  /\ forall p, p ∈ [(1, 5); (4, 0); (4, 7); (2, 2)] ->
        p.1 <= (tip_of [(1, 5); (4, 0); (4, 7); (2, 2)]).1.
Proof.
  destruct (tip_is_first_rightmost [(1, 5); (4, 0); (4, 7); (2, 2)])
    as (Htip & Hmax & _); [discriminate | by split].
Defined.


(** X23: the rotation cuts the unique points at the tip and swaps the two
    parts: it starts with the tip and holds the same points. *)
Theorem rotation_starts_at_tip (unique_points : list point) :
  unique_points <> [] ->
  head (rotated_of unique_points) = Some (tip_of unique_points)
  /\ rotated_of unique_points ≡ₚ unique_points
  /\ exists before from_tip,
       unique_points = before ++ from_tip
       /\ rotated_of unique_points = from_tip ++ before
       /\ length before = argmax_x unique_points.
Proof.
  intros Hne. destruct (argmax_x_spec unique_points Hne) as (Hlt & _).
  unfold rotated_of. split_and!.
  - rewrite head_lookup, lookup_app_l by (rewrite length_drop; lia).
    rewrite lookup_drop, Nat.add_0_r. unfold tip_of.
    destruct (lookup_lt_is_Some_2 unique_points (argmax_x unique_points) Hlt)
      as [p Hp].
    by rewrite (nth_lookup_Some _ _ origin _ Hp).
  - rewrite Permutation_app_comm. by rewrite take_drop.
  - exists (take (argmax_x unique_points) unique_points),
      (drop (argmax_x unique_points) unique_points).
    split_and!; [by rewrite take_drop | done |].
    rewrite length_take. lia.
Qed.

Lemma rotation_starts_at_tip_witness :
  head (rotated_of [(1, 5); (4, 0); (4, 7); (2, 2)])
  = Some (tip_of [(1, 5); (4, 0); (4, 7); (2, 2)])
  /\ rotated_of [(1, 5); (4, 0); (4, 7); (2, 2)]
     ≡ₚ [(1, 5); (4, 0); (4, 7); (2, 2)].
Proof.
  destruct (rotation_starts_at_tip [(1, 5); (4, 0); (4, 7); (2, 2)])
    as (Hhead & Hperm & _); [discriminate | by split].
Defined.

Lemma rotated_head (unique_points : list point) :
  unique_points <> [] ->
  exists tl, rotated_of unique_points = tip_of unique_points :: tl.
Proof.
  intros Hne. destruct (argmax_x_spec unique_points Hne) as (Hlt & _).
  assert (Hhead : head (rotated_of unique_points) = Some (tip_of unique_points)).
  { unfold rotated_of.
    rewrite head_lookup, lookup_app_l by (rewrite length_drop; lia).
    rewrite lookup_drop, Nat.add_0_r. unfold tip_of.
    destruct (lookup_lt_is_Some_2 unique_points (argmax_x unique_points) Hlt)
      as [p Hp].
    by rewrite (nth_lookup_Some _ _ origin _ Hp). }
  by apply head_Some in Hhead.
Qed.

Lemma rotated_elem (unique_points : list point) (p : point) :
  p ∈ rotated_of unique_points <-> p ∈ unique_points.
Proof.
  assert (Hperm : rotated_of unique_points ≡ₚ unique_points).
  { unfold rotated_of. rewrite Permutation_app_comm. by rewrite take_drop. }
  by rewrite Hperm.
Qed.

Lemma collect_arm_spec (axis_y : R) (l : list point) :
  sublist (collect_arm axis_y l) l
  /\ Forall (fun p : point => p.2 <= axis_y + 0.1) (collect_arm axis_y l).
Proof.
  induction l as [|p l [Hsub Hall]]; simpl; [done|].
  case_decide as Hcross.
  - split; [apply sublist_nil_l | constructor].
  - split; [by apply sublist_skip|]. constructor; [lra | done].
Qed.

Lemma insert_by_key_elem (key : point -> R) (p x : point) (l : list point) :
  x ∈ insert_by_key key p l <-> x = p \/ x ∈ l.
Proof.
  induction l as [|q l IH]; simpl.
  - rewrite elem_of_cons, elem_of_nil. tauto.
  - case_decide; rewrite !elem_of_cons; [tauto|]. rewrite IH. tauto.
Qed.

Lemma sorted_by_key_elem (key : point -> R) (x : point) (l : list point) :
  x ∈ sorted_by_key key l <-> x ∈ l.
Proof.
  unfold sorted_by_key. induction l as [|p l IH]; simpl; [done|].
  rewrite insert_by_key_elem, elem_of_cons, IH. tauto.
Qed.

Lemma geometric_filter_elem (unique_points : list point) (tip p : point) :
  p ∈ geometric_filter unique_points tip
  <-> p <> tip /\ p.2 <= tip.2 + 0.5 /\ p ∈ unique_points.
Proof.
  unfold geometric_filter.
  by rewrite list_elem_of_filter, sorted_by_key_elem, list_elem_of_filter.
Qed.

Lemma removelast_elem (l : list point) (p : point) :
  p ∈ removelast l -> p ∈ l.
Proof.
  destruct l as [|a l _] using rev_ind; [done|].
  rewrite removelast_last, elem_of_app. tauto.
Qed.

Lemma top_arm_spec (unique_points : list point) :
  unique_points <> [] ->
  let axis_y := (tip_of unique_points).2 in
  Forall (fun p : point => p ∈ unique_points /\ p.2 <= axis_y + 0.5)
         (top_arm unique_points).1
  /\ ((top_arm unique_points).2 = [] ->
      Forall (fun p : point => p.2 <= axis_y + 0.1) (top_arm unique_points).1)
  /\ ((top_arm unique_points).2 <> [] ->
      tip_of unique_points ∉ (top_arm unique_points).1)
  /\ (forward_is_top (rotated_of unique_points) axis_y = true ->
      (top_arm unique_points).1 <> []).
Proof.
  intros Hne axis_y.
  destruct (rotated_head unique_points Hne) as (tl & Hrot).
  unfold top_arm. fold axis_y.
  destruct (forward_is_top (rotated_of unique_points) axis_y) eqn:Hfwd;
    [|destruct (backward_is_top (rotated_of unique_points) axis_y) eqn:Hbwd];
    simpl.
  - destruct (collect_arm_spec axis_y (drop 1 (rotated_of unique_points)))
      as [Hsub Hall].
    split_and!; [| done | done |].
    + apply Forall_forall. intros p Hp. split.
      * apply rotated_elem. eapply elem_of_sublist; [exact Hp|].
        etrans; [exact Hsub | apply sublist_drop].
      * rewrite Forall_forall in Hall. specialize (Hall p Hp). simpl in Hall. lra.
    + intros _. unfold forward_is_top in Hfwd. rewrite Hrot in *.
      destruct tl as [|q tl]; simpl in Hfwd.
      * apply bool_decide_eq_true in Hfwd. subst axis_y. lra.
      * apply bool_decide_eq_true in Hfwd. simpl.
        rewrite decide_False by lra. done.
  - destruct (collect_arm_spec axis_y (rev (removelast (rotated_of unique_points))))
      as [Hsub Hall].
    split_and!; [| done | done | done].
    apply Forall_forall. intros p Hp. split.
    + apply rotated_elem, removelast_elem.
      apply list_elem_of_In, in_rev, list_elem_of_In.
      by eapply elem_of_sublist.
    + rewrite Forall_forall in Hall. specialize (Hall p Hp). simpl in Hall. lra.
  - split_and!; [| done | | done].
    + apply Forall_forall. intros p Hp.
      apply geometric_filter_elem in Hp as (_ & Hy & Hin). by split.
    + intros _ Hin. apply geometric_filter_elem in Hin as (Habs & _). done.
Qed.

(** X24: every point of the collected top arm is one of the unique points
    and lies at most 0.5 below the axis, at most 0.1 when nothing was
    printed; after the warning the tip is not among them; and when the point
    after the tip lies above the axis the top arm is not empty. *)
Theorem top_arm_points (unique_points : list point) :
  unique_points <> [] ->
  let axis_y := (tip_of unique_points).2 in
  Forall (fun p : point => p ∈ unique_points /\ p.2 <= axis_y + 0.5)
         (top_arm unique_points).1
  /\ ((top_arm unique_points).2 = [] ->
      Forall (fun p : point => p.2 <= axis_y + 0.1) (top_arm unique_points).1)
  /\ ((top_arm unique_points).2 <> [] ->
      tip_of unique_points ∉ (top_arm unique_points).1)
  /\ (forward_is_top (rotated_of unique_points) axis_y = true ->
      (top_arm unique_points).1 <> []).
Proof. apply top_arm_spec. Qed.

Lemma top_arm_points_witness :
  Forall (fun p : point =>
            p ∈ [(100, 50); (80, 30); (60, 45); (70, 80)]
            /\ p.2 <= (tip_of [(100, 50); (80, 30); (60, 45); (70, 80)]).2 + 0.5)
         (top_arm [(100, 50); (80, 30); (60, 45); (70, 80)]).1.
Proof.
  destruct (top_arm_points [(100, 50); (80, 30); (60, 45); (70, 80)])
    as (Hall & _); [discriminate | exact Hall].
Defined.


Lemma mirror_keeps_x (axis_y : R) (l : list point) :
  map fst (map (mirror axis_y) l) = map fst l.
Proof. induction l as [|[x y] l IH]; [done|]. simpl. by rewrite IH. Qed.

Lemma outline_x_profile (tip : point) (top : list point) (x : R) :
  map fst (rev ([tip] ++ top ++ [(x, tip.2)] ++ map (mirror tip.2) (rev top)
                ++ [tip]))
  = map fst ([tip] ++ top ++ [(x, tip.2)] ++ map (mirror tip.2) (rev top)
             ++ [tip]).
Proof.
  repeat rewrite rev_app_distr.
  repeat first [rewrite map_app | progress cbn [map app rev fst]].
  rewrite <- (map_rev (mirror tip.2)), rev_involutive, !mirror_keeps_x, map_rev.
  repeat rewrite <- app_assoc. by rewrite map_rev.
Qed.

(** What [symmetrize_arrow] returns once the top arm is not empty. *)
Lemma symmetrize_outline (points : list point) :
  points <> [] ->
  (top_arm (unique_points_of points)).1 <> [] ->
  exists top notch,
    (top_arm (unique_points_of points)).1 = top ++ [notch]
    /\ (symmetrize_arrow points).1
       = mirrored_outline (tip_of (unique_points_of points)) (top ++ [notch]).
Proof.
  intros Hne Harm.
  destruct (exists_last Harm) as (top & notch & Htop).
  exists top, notch. split; [done|].
  unfold symmetrize_arrow.
  destruct points as [|p0 rest]; [done|].
  destruct (unique_points_of_nonempty p0 rest) as (tl & Hu).
  rewrite Hu in *.
  destruct (top_arm (p0 :: tl)) as [top_points printed]. simpl in Htop.
  subst top_points. by destruct top.
Qed.

(** X25: when the top arm is not empty, the polygon returned starts and
    ends at the tip, its x coordinates read the same forwards and backwards
    (the mirror step copies x and only computes y), and no point of it lies
    to the right of the tip. *)
Theorem symmetrized_x_profile (points : list point) :
  points <> [] ->
  (top_arm (unique_points_of points)).1 <> [] ->
  let tip := tip_of (unique_points_of points) in
  let out := (symmetrize_arrow points).1 in
  head out = Some tip
  /\ last out = Some tip
  /\ map fst (rev out) = map fst out
  /\ forall p, p ∈ out -> p.1 <= tip.1.
Proof.
  intros Hne Harm tip out.
  destruct (symmetrize_outline points Hne Harm) as (top & notch & Htop & Hout).
  fold tip in Hout. fold out in Hout.
  rewrite mirrored_outline_snoc in Hout.
  assert (Hu : unique_points_of points <> []).
  { destruct points as [|p0 rest]; [done|].
    by destruct (unique_points_of_nonempty p0 rest) as (tl & ->). }
  split_and!.
  - by rewrite Hout.
  - rewrite Hout, !app_assoc. apply last_snoc.
  - rewrite Hout. apply outline_x_profile.
  - destruct (argmax_x_spec (unique_points_of points) Hu) as (Hlt & Hmax & _).
    fold tip in Hmax.
    destruct (top_arm_spec (unique_points_of points) Hu) as (Hall & _).
    rewrite Htop in Hall. rewrite Forall_forall in Hall.
    assert (Htopx : forall q, q ∈ top ++ [notch] -> q.1 <= tip.1).
    { intros q Hq. apply Hmax. by apply Hall. }
    intros p. rewrite Hout, !elem_of_app, !elem_of_cons, !elem_of_nil.
    intros [[-> | []] | [Hp | [[-> | []] | [Hp | [-> | []]]]]]; try lra.
    + apply Htopx. apply elem_of_app. by left.
    + simpl. apply (Htopx notch). apply elem_of_app. right. by left.
    + apply list_elem_of_In, in_map_iff in Hp as (q & <- & Hq).
      simpl. apply Htopx. apply elem_of_app. left.
      by apply list_elem_of_In, in_rev.
Qed.

Lemma symmetrized_x_profile_witness :
  map fst (rev (symmetrize_arrow [(100, 50); (80, 30); (60, 45); (70, 80)]).1)
  = map fst (symmetrize_arrow [(100, 50); (80, 30); (60, 45); (70, 80)]).1.
Proof.
  assert (Hu : unique_points_of [(100, 50); (80, 30); (60, 45); (70, 80)]
               = [(100, 50); (80, 30); (60, 45); (70, 80)]).
  { unfold unique_points_of. cbn. eval_tests. done. }
  assert (Hidx : argmax_x [(100, 50); (80, 30); (60, 45); (70, 80)] = 0%nat).
  { unfold argmax_x. cbn. eval_tests. done. }
  assert (Harm : (top_arm [(100, 50); (80, 30); (60, 45); (70, 80)]).1
                 = [(80, 30); (60, 45)]).
  { unfold top_arm, tip_of, rotated_of, forward_is_top.
    rewrite Hidx. cbn. eval_tests. done. }
  destruct (symmetrized_x_profile
              [(100, 50); (80, 30); (60, 45); (70, 80)]) as (_ & _ & Hsym & _).
  - discriminate.
  - by rewrite Hu, Harm.
  - exact Hsym.
Defined.
